(** * DisneyAkinator: the question tree of [tree.cpp]

    A shallow embedding of [QuestionTree::buildTree], of the session
    operations [getQuestionText], [getCharacter] and [setAnswer], and of the
    character lookup [readCharacterByID], with the properties of the
    specification stated over them.

    Conventions.
    - [int] is a 32-bit two's complement integer, carried in [Z]; the
      conversions and the arithmetic of the scoring loop wrap explicitly
      (signed overflow is undefined in the source; the statements that
      depend on a score bound the number of remaining ids, so that nothing
      wraps).
    - [set<int>] is a [gset Z]; [set_intersection] and [set_difference] over
      two sorted ranges are the intersection and the difference of the sets.
    - [Question *] is an address ([loc]) or null ([option loc]); the objects
      live in a store [gmap loc Question].
    - where the source gives no defined value (a pointer that holds no
      object is dereferenced, a function that returns a value ends in a bare
      [return;]) the embedding returns [None]. *)

From Stdlib Require Import ZArith Ascii String DecimalString.
From Stdlib Require DecimalPos DecimalZ.
From stdpp Require Import gmap strings list sorting.
From Equations Require Import Equations.

Local Open Scope string_scope.
Local Open Scope Z_scope.

(** ** Machine integers *)

Definition INT_MAX : Z := 2147483647.
Definition INT_MIN : Z := -2147483648.

(** Reduction of an integer to the range of [int]. *)
Definition wrap_int (z : Z) : Z := (z + 2 ^ 31) `mod` 2 ^ 32 - 2 ^ 31.

(** [(int) s.size()] *)
Definition int_of_size (n : nat) : Z := wrap_int (Z.of_nat n).

(** [a - b] on [int]. *)
Definition int_sub (a b : Z) : Z := wrap_int (a - b).

(** [abs(a)] on [int]. *)
Definition int_abs (a : Z) : Z := wrap_int (Z.abs a).

(** [to_string(int)]: decimal digits, with a leading minus sign. *)
Definition to_string (z : Z) : string := NilZero.string_of_int (Z.to_int z).

(** ** Objects and the store *)

Abbreviation loc := positive.

(** [class Question]: the fields in the order of the source; [left] and
    [right] are pointers, null by default. *)
Record Question := mkQuestion {
  q_id : Z;
  text : string;
  positive_ids : gset Z;
  negative_ids : gset Z;
  left : option loc;
  right : option loc
}.

(** The constructor [Question(id, txt, pos_ids, neg_ids)]. *)
Definition Question_new (id : Z) (txt : string) (pos_ids neg_ids : gset Z) : Question :=
  mkQuestion id txt pos_ids neg_ids None None.

(** The tree that hangs from a [Question *]: every node built by [buildTree]
    comes from its own [new], is linked once and never written again, so a
    node owns its two children. *)
#[warnings="-register-all"]
Inductive tree : Type :=
| Node (id : Z) (txt : string) (pos_ids neg_ids : gset Z) (l r : option tree).

Definition node_id (t : tree) : Z := let 'Node i _ _ _ _ _ := t in i.
Definition node_text (t : tree) : string := let 'Node _ s _ _ _ _ := t in s.
Definition node_positive (t : tree) : gset Z := let 'Node _ _ p _ _ _ := t in p.
Definition node_negative (t : tree) : gset Z := let 'Node _ _ _ n _ _ := t in n.
Definition node_left (t : tree) : option tree := let 'Node _ _ _ _ l _ := t in l.
Definition node_right (t : tree) : option tree := let 'Node _ _ _ _ _ r := t in r.

(** [new Question(-1, msg, {}, {})] *)
Definition leaf (msg : string) : tree := Node (-1) msg ∅ ∅ None None.

(** [*s.begin()]: the least element of an ordered set. *)
Definition set_begin (s : gset Z) : option Z := head (merge_sort Z.le (elements s)).

(** ** The scoring loop of [buildTree] *)

(** The balance of one question against the remaining ids, as line 229
    computes it. *)
Definition difference_of (remaining_ids : gset Z) (q : Question) : Z :=
  let pos_ids := remaining_ids ∩ positive_ids q in
  let neg_ids := remaining_ids ∩ negative_ids q in
  int_abs (int_sub (int_of_size (size pos_ids)) (int_of_size (size neg_ids))).

(** The [for (auto *q : questions)] loop, from the state
    [(best_question, min_difference)]. *)
Fixpoint scan (h : gmap loc Question) (remaining_ids : gset Z) (questions : list loc)
    (best_question : option loc) (min_difference : Z) : option (option loc) :=
  match questions with
  | [] => Some best_question
  | q :: rest =>
      match h !! q with
      | None => None
      | Some obj =>
          let difference := difference_of remaining_ids obj in
          if decide (difference < min_difference)
          then scan h remaining_ids rest (Some q) difference
          else scan h remaining_ids rest best_question min_difference
      end
  end.

Definition select_best (h : gmap loc Question) (remaining_ids : gset Z)
    (questions : list loc) : option (option loc) :=
  scan h remaining_ids questions None INT_MAX.

(** The second loop: the pointers different from [best_question], in order. *)
Definition remove_question (best_question : loc) (questions : list loc) : list loc :=
  filter (λ q, q ≠ best_question) questions.

Lemma scan_best_in h remaining_ids questions b m best :
  scan h remaining_ids questions b m = Some (Some best) →
  b = Some best ∨ best ∈ questions.
Proof.
  revert b m. induction questions as [|q rest IH]; intros b m; simpl.
  - intros [= ->]. by left.
  - destruct (h !! q) as [obj|]; [|done].
    case_decide; intros [Hb|Hin]%IH.
    + inversion Hb; subst. right. apply elem_of_cons. by left.
    + right. apply elem_of_cons. by right.
    + by left.
    + right. apply elem_of_cons. by right.
Qed.

Lemma select_best_in h remaining_ids questions best :
  select_best h remaining_ids questions = Some (Some best) → best ∈ questions.
Proof. intros [?|?]%scan_best_in; [done|done]. Qed.

Lemma remove_question_length best questions :
  best ∈ questions →
  (length (remove_question best questions) < length questions)%nat.
Proof.
  intros Hin. unfold remove_question.
  induction questions as [|q rest IH]; [by apply elem_of_nil in Hin|].
  rewrite filter_cons. case_decide as Hq; simpl.
  - apply elem_of_cons in Hin as [->|Hin]; [done|]. specialize (IH Hin). lia.
  - pose proof (length_filter (λ q, q ≠ best) rest). lia.
Qed.

(** ** [QuestionTree::buildTree] *)

(** A value together with the equation that names it, so that a case
    analysis keeps what was analysed. *)
Definition inspect {A : Type} (a : A) : {b : A | a = b} := exist _ a eq_refl.

Definition MSG_IDENTIFIED : string := "Character identified: ".
Definition MSG_NO_QUESTIONS : string := "No more questions. Unable to identify.".
Definition MSG_UNABLE : string := "Unable to further differentiate.".

Equations? buildTree (h : gmap loc Question) (remaining_ids : gset Z)
    (questions : list loc) : option tree by wf (length questions) lt :=
buildTree h remaining_ids questions with bool_decide (size remaining_ids = 1%nat) := {
  | true := x ← set_begin remaining_ids; Some (leaf (MSG_IDENTIFIED +:+ to_string x));
  | false with bool_decide (questions = []) := {
    | true := Some (leaf MSG_NO_QUESTIONS);
    | false with inspect (select_best h remaining_ids questions) := {
      | exist _ None _ := None;
      | exist _ (Some None) _ := Some (leaf MSG_UNABLE);
      | exist _ (Some (Some best_question)) Hsel with h !! best_question := {
        | None := None;
        | Some best :=
            let pos_ids := remaining_ids ∩ positive_ids best in
            let neg_ids := remaining_ids ∩ negative_ids best in
            let remaining_questions := remove_question best_question questions in
            l ← buildTree h pos_ids remaining_questions;
            r ← buildTree h neg_ids remaining_questions;
            Some (Node (q_id best) (text best) (positive_ids best) (negative_ids best)
                       (Some l) (Some r)) } } } }.
Proof.
  all: apply remove_question_length, (select_best_in _ _ _ _ Hsel).
Qed.

(** The body of [buildTree], as one equation. *)
Definition buildTree_body (h : gmap loc Question) (remaining_ids : gset Z)
    (questions : list loc) : option tree :=
  if bool_decide (size remaining_ids = 1%nat)
  then x ← set_begin remaining_ids; Some (leaf (MSG_IDENTIFIED +:+ to_string x))
  else if bool_decide (questions = [])
  then Some (leaf MSG_NO_QUESTIONS)
  else match select_best h remaining_ids questions with
       | None => None
       | Some None => Some (leaf MSG_UNABLE)
       | Some (Some best_question) =>
           match h !! best_question with
           | None => None
           | Some best =>
               let pos_ids := remaining_ids ∩ positive_ids best in
               let neg_ids := remaining_ids ∩ negative_ids best in
               let remaining_questions := remove_question best_question questions in
               l ← buildTree h pos_ids remaining_questions;
               r ← buildTree h neg_ids remaining_questions;
               Some (Node (q_id best) (text best) (positive_ids best) (negative_ids best)
                          (Some l) (Some r))
           end
       end.

(** ** [buildTree] with its allocations

    The same function with every [new] drawing a fresh address from the
    store and [node->left = ...], [node->right = ...] written as stores
    into the object at [node].  It returns the pointer to the root and the
    store after the call. *)

(** [new Question(...)]: an address that holds no object yet. *)
Definition new_Question (obj : Question) (σ : gmap loc Question) : loc * gmap loc Question :=
  let p := fresh (dom σ) in (p, <[p := obj]> σ).

(** [p->left = v] and [p->right = v]. *)
Definition store_left (p : loc) (v : option loc) (σ : gmap loc Question) :
    option (gmap loc Question) :=
  o ← σ !! p;
  Some (<[p := mkQuestion (q_id o) (text o) (positive_ids o) (negative_ids o) v (right o)]> σ).

Definition store_right (p : loc) (v : option loc) (σ : gmap loc Question) :
    option (gmap loc Question) :=
  o ← σ !! p;
  Some (<[p := mkQuestion (q_id o) (text o) (positive_ids o) (negative_ids o) (left o) v]> σ).

Equations? buildTree_heap (remaining_ids : gset Z) (questions : list loc)
    (σ : gmap loc Question) : option (loc * gmap loc Question)
    by wf (length questions) lt :=
buildTree_heap remaining_ids questions σ with bool_decide (size remaining_ids = 1%nat) := {
  | true := x ← set_begin remaining_ids;
            Some (new_Question (Question_new (-1) (MSG_IDENTIFIED +:+ to_string x) ∅ ∅) σ);
  | false with bool_decide (questions = []) := {
    | true := Some (new_Question (Question_new (-1) MSG_NO_QUESTIONS ∅ ∅) σ);
    | false with inspect (select_best σ remaining_ids questions) := {
      | exist _ None _ := None;
      | exist _ (Some None) _ := Some (new_Question (Question_new (-1) MSG_UNABLE ∅ ∅) σ);
      | exist _ (Some (Some best_question)) Hsel with σ !! best_question := {
        | None := None;
        | Some best :=
            let pos_ids := remaining_ids ∩ positive_ids best in
            let neg_ids := remaining_ids ∩ negative_ids best in
            let remaining_questions := remove_question best_question questions in
            let node_σ1 :=
              new_Question (Question_new (q_id best) (text best)
                                         (positive_ids best) (negative_ids best)) σ in
            l_σ2 ← buildTree_heap pos_ids remaining_questions node_σ1.2;
            σ3 ← store_left node_σ1.1 (Some l_σ2.1) l_σ2.2;
            r_σ4 ← buildTree_heap neg_ids remaining_questions σ3;
            σ5 ← store_right node_σ1.1 (Some r_σ4.1) r_σ4.2;
            Some (node_σ1.1, σ5) } } } }.
Proof.
  all: apply remove_question_length, (select_best_in _ _ _ _ Hsel).
Qed.

(** The body of [buildTree_heap], as one equation. *)
Definition buildTree_heap_body (remaining_ids : gset Z) (questions : list loc)
    (σ : gmap loc Question) : option (loc * gmap loc Question) :=
  if bool_decide (size remaining_ids = 1%nat)
  then x ← set_begin remaining_ids;
       Some (new_Question (Question_new (-1) (MSG_IDENTIFIED +:+ to_string x) ∅ ∅) σ)
  else if bool_decide (questions = [])
  then Some (new_Question (Question_new (-1) MSG_NO_QUESTIONS ∅ ∅) σ)
  else match select_best σ remaining_ids questions with
       | None => None
       | Some None => Some (new_Question (Question_new (-1) MSG_UNABLE ∅ ∅) σ)
       | Some (Some best_question) =>
           match σ !! best_question with
           | None => None
           | Some best =>
               let pos_ids := remaining_ids ∩ positive_ids best in
               let neg_ids := remaining_ids ∩ negative_ids best in
               let remaining_questions := remove_question best_question questions in
               let node_σ1 :=
                 new_Question (Question_new (q_id best) (text best)
                                            (positive_ids best) (negative_ids best)) σ in
               l_σ2 ← buildTree_heap pos_ids remaining_questions node_σ1.2;
               σ3 ← store_left node_σ1.1 (Some l_σ2.1) l_σ2.2;
               r_σ4 ← buildTree_heap neg_ids remaining_questions σ3;
               σ5 ← store_right node_σ1.1 (Some r_σ4.1) r_σ4.2;
               Some (node_σ1.1, σ5)
           end
       end.

(** What a pointer denotes in a store: null denotes no tree, an address the
    tree of the object it holds. *)
Inductive reads (σ : gmap loc Question) : option loc → option tree → Prop :=
| reads_null : reads σ None None
| reads_node p o tl tr :
    σ !! p = Some o →
    reads σ (left o) tl →
    reads σ (right o) tr →
    reads σ (Some p)
      (Some (Node (q_id o) (text o) (positive_ids o) (negative_ids o) tl tr)).

(** ** The session: [class QuestionTree] *)

Record QuestionTree := mkQuestionTree {
  root : option tree;
  characters : gset Z
}.

Definition charactersFilename : string := "characters.csv".

(** The initializer of [characters]: the ids 1 to 32. *)
Definition all_characters : gset Z := list_to_set (seqZ 1 32).

(** The constructor, from the pool that [readQuestionsFromCSV] returned. *)
Definition QuestionTree_new (h : gmap loc Question) (questions : list loc) :
    option QuestionTree :=
  t ← buildTree h all_characters questions;
  Some (mkQuestionTree (Some t) all_characters).

Definition getQuestionText (s : QuestionTree) : option string :=
  node_text <$> root s.

Definition setAnswer (Answer : bool) (s : QuestionTree) : option QuestionTree :=
  r ← root s;
  if Answer
  then let diff := characters s ∖ node_negative r in
       Some (mkQuestionTree (node_left r) diff)
  else let diff := characters s ∖ node_positive r in
       Some (mkQuestionTree (node_right r) diff).

(** A sequence of calls of [setAnswer], first answer first. *)
Fixpoint setAnswers (answers : list bool) (s : QuestionTree) : option QuestionTree :=
  match answers with
  | [] => Some s
  | a :: rest => s' ← setAnswer a s; setAnswers rest s'
  end.

(** ** The character file: [readCharacterByID] *)

Record Character := mkCharacter {
  char_id : Z;
  name : string;
  image_path : string
}.

Inductive exn : Type :=
| runtime_error (what : string)
| invalid_argument (what : string)
| out_of_range (what : string).

(** How a call that returns an [A] ends: with a value or with an
    exception. *)
Inductive outcome (A : Type) : Type :=
| Returned (a : A)
| Thrown (e : exn).
Arguments Returned {A} a.
Arguments Thrown {A} e.

(** [isspace] in the C locale. *)
Definition is_space (a : ascii) : bool :=
  let n := nat_of_ascii a in (n =? 32)%nat || ((9 <=? n)%nat && (n <=? 13)%nat).

Definition digit_of (a : ascii) : option Z :=
  let n := nat_of_ascii a in
  if (48 <=? n)%nat && (n <=? 57)%nat then Some (Z.of_nat n - 48) else None.

Fixpoint skip_spaces (s : string) : string :=
  match s with
  | String a s' => if is_space a then skip_spaces s' else s
  | EmptyString => s
  end.

(** The longest run of decimal digits at the head of [s], as a number;
    [acc] is [None] until a digit was read. *)
Fixpoint read_digits (s : string) (acc : option Z) : option Z :=
  match s with
  | String a s' =>
      match digit_of a with
      | Some d => read_digits s' (Some (10 * default 0 acc + d))
      | None => acc
      end
  | EmptyString => acc
  end.

(** [std::stoi(s)]: leading white space, an optional sign, decimal digits;
    what follows the digits is ignored. *)
Definition stoi (s : string) : outcome Z :=
  let s1 := skip_spaces s in
  let '(negative, s2) :=
    match s1 with
    | String "-" s' => (true, s')
    | String "+" s' => (false, s')
    | _ => (false, s1)
    end in
  match read_digits s2 None with
  | None => Thrown (invalid_argument "stoi")
  | Some v =>
      let v' := if negative then - v else v in
      if decide (INT_MIN ≤ v' ≤ INT_MAX) then Returned v'
      else Thrown (out_of_range "stoi")
  end.

(** The pieces of [s] between the occurrences of [d]. *)
Fixpoint split_on (d : ascii) (s : string) : list string :=
  match s with
  | EmptyString => [EmptyString]
  | String a s' =>
      if decide (a = d) then EmptyString :: split_on d s'
      else match split_on d s' with
           | f :: fs => String a f :: fs
           | [] => [String a EmptyString]
           end
  end.

(** The loop over the lines after the header. *)
Fixpoint find_character (lines : list string) (search_id : Z) : outcome Character :=
  match lines with
  | [] => Thrown (runtime_error "Character with the given ID not found")
  | line :: rest =>
      let fields := split_on "," line in
      let id_str := nth 0 fields "" in
      let name := nth 1 fields "" in
      let image_path := nth 2 fields "" in
      match stoi id_str with
      | Returned id =>
          if decide (id = search_id) then Returned (mkCharacter id name image_path)
          else find_character rest search_id
      | Thrown e => Thrown e
      end
  end.

(** [readCharacterByID(filename, search_id)], over a file system that maps
    a file name to the lines of the file. *)
Definition readCharacterByID (fs : gmap string (list string)) (filename : string)
    (search_id : Z) : outcome Character :=
  match fs !! filename with
  | None => Thrown (runtime_error "File not found")
  | Some lines => find_character (tail lines) search_id
  end.

(** [getCharacter]: the three branches on [characters.size()].  The first
    is the bare [return;] of the source, which gives the caller no value:
    [None].  In the last the set has one element and [begin()] points at
    it. *)
Definition getCharacter (fs : gmap string (list string)) (s : QuestionTree) :
    option (outcome Character) :=
  if decide (1 < size (characters s))%nat then None
  else if decide (size (characters s) < 1)%nat
  then Some (readCharacterByID fs charactersFilename 0)
  else characterID ← set_begin (characters s);
       Some (readCharacterByID fs charactersFilename characterID).

(** ** The question file: [parseSet] and [readQuestionsFromCSV] *)

(** [a - b] on [size_t]. *)
Definition size_t_sub (a b : Z) : Z := (a - b) `mod` 2 ^ 64.

(** [s.substr(pos, len)]: it throws [out_of_range] when [pos] is beyond the
    end of [s], and takes no more than what [s] has from [pos] on.  The
    text of the exception is the library's own; the embedding keeps the
    name of the function in it. *)
Definition substr (s : string) (pos : nat) (len : Z) : outcome string :=
  if decide (String.length s < pos)%nat
  then Thrown (out_of_range "basic_string::substr")
  else Returned (substring pos
                   (Z.to_nat (Z.min len (Z.of_nat (String.length s - pos)))) s).

(** The strings that [while (getline(ss, item, d))] goes through over a
    stream that holds [s]: a call fails, and ends the loop, when nothing is
    left to read; the text after the last delimiter is an item unless it is
    empty. *)
Fixpoint getline_all (d : ascii) (s : string) : list string :=
  match s with
  | EmptyString => []
  | String a s' =>
      if decide (a = d) then EmptyString :: getline_all d s'
      else match getline_all d s' with
           | item :: items => String a item :: items
           | [] => [String a EmptyString]
           end
  end.

(** The body of the loop of [parseSet], over the items still to read. *)
Fixpoint insert_items (items : list string) (result : gset Z) : outcome (gset Z) :=
  match items with
  | [] => Returned result
  | item :: rest =>
      match stoi item with
      | Returned v => insert_items rest ({[v]} ∪ result)
      | Thrown e => Thrown e
      end
  end.

Definition parseSet (setStr : string) : outcome (gset Z) :=
  match substr setStr 1 (size_t_sub (Z.of_nat (String.length setStr)) 2) with
  | Returned numbers => insert_items (getline_all "." numbers) ∅
  | Thrown e => Thrown e
  end.

(** The double quote character. *)
Definition dquote : ascii := ascii_of_nat 34.

(** [s.front()] and [s.back()]: undefined on the empty string. *)
Definition front (s : string) : option ascii :=
  match s with
  | String a _ => Some a
  | EmptyString => None
  end.

Fixpoint back (s : string) : option ascii :=
  match s with
  | EmptyString => None
  | String a EmptyString => Some a
  | String _ s' => back s'
  end.

(** The removal of the quotes around the question text (lines 156 to 159):
    [back] is read only if [front] is a quote. *)
Definition unquote (text : string) : option (outcome string) :=
  f ← front text;
  if decide (f = dquote)
  then b ← back text;
       if decide (b = dquote)
       then Some (substr text 1 (size_t_sub (Z.of_nat (String.length text)) 2))
       else Some (Returned text)
  else Some (Returned text).

(** One turn of the loop of [readQuestionsFromCSV], up to the arguments of
    [new Question]. *)
Definition parse_question (line : string) : option (outcome Question) :=
  let fields := getline_all "," line in
  let idStr := nth 0 fields "" in
  let text := nth 1 fields "" in
  let trueSetStr := nth 2 fields "" in
  let falseSetStr := nth 3 fields "" in
  unquoted ← unquote text;
  match unquoted with
  | Thrown e => Some (Thrown e)
  | Returned text' =>
      match stoi idStr with
      | Thrown e => Some (Thrown e)
      | Returned id =>
          match parseSet trueSetStr with
          | Thrown e => Some (Thrown e)
          | Returned trueSet =>
              match parseSet falseSetStr with
              | Thrown e => Some (Thrown e)
              | Returned falseSet =>
                  Some (Returned (Question_new id text' trueSet falseSet))
              end
          end
      end
  end.

(** The loop over the lines after the header; [questions] is the vector so
    far.  An exception leaves the objects allocated before it in the
    store. *)
Fixpoint read_question_lines (lines : list string) (questions : list loc)
    (σ : gmap loc Question) : option (outcome (list loc) * gmap loc Question) :=
  match lines with
  | [] => Some (Returned questions, σ)
  | line :: rest =>
      match parse_question line with
      | None => None
      | Some (Thrown e) => Some (Thrown e, σ)
      | Some (Returned q) =>
          let p_σ' := new_Question q σ in
          read_question_lines rest (questions ++ [p_σ'.1]) p_σ'.2
      end
  end.

(** [readQuestionsFromCSV(filename)]: a file that cannot be opened gives
    the empty vector. *)
Definition readQuestionsFromCSV (fs : gmap string (list string)) (filename : string)
    (σ : gmap loc Question) : option (outcome (list loc) * gmap loc Question) :=
  match fs !! filename with
  | None => Some (Returned [], σ)
  | Some lines => read_question_lines (tail lines) [] σ
  end.


(** The text of a set of ids in the question file, as the comment of
    [parseSet] gives it: the ids between braces, with dots between them. *)
Fixpoint dotted (l : list Z) : string :=
  match l with
  | [] => EmptyString
  | [x] => to_string x
  | x :: rest => to_string x +:+ "." +:+ dotted rest
  end.

Definition set_literal (l : list Z) : string := "{" +:+ dotted l +:+ "}".

(** The line of the question file for a question. *)
Definition question_line (id : Z) (text : string) (pos_ids neg_ids : list Z) : string :=
  to_string id +:+ "," +:+ text +:+ "," +:+ set_literal pos_ids
    +:+ "," +:+ set_literal neg_ids.

(** ** Notions used by the statements *)

(** Every pointer of the pool points to an object of the store. *)
Definition pool_valid (h : gmap loc Question) (questions : list loc) : Prop :=
  ∀ q, q ∈ questions → is_Some (h !! q).

(** The balance score in mathematical integers: the absolute difference of
    the numbers of remaining ids on the two sides of a question. *)
Definition balance_score (remaining_ids : gset Z) (q : Question) : Z :=
  Z.abs (Z.of_nat (size (remaining_ids ∩ positive_ids q))
         - Z.of_nat (size (remaining_ids ∩ negative_ids q))).

(** [questions !! i] is the first pointer of the pool whose object has the
    least [difference]: no object of the pool has a lower one, and every
    object before position [i] has a strictly greater one. *)
Definition first_min (h : gmap loc Question) (remaining_ids : gset Z)
    (questions : list loc) (i : nat) (best_question : loc) (best : Question) : Prop :=
  questions !! i = Some best_question ∧
  h !! best_question = Some best ∧
  (∀ j q o, questions !! j = Some q → h !! q = Some o →
            difference_of remaining_ids best ≤ difference_of remaining_ids o) ∧
  (∀ j q o, (j < i)%nat → questions !! j = Some q → h !! q = Some o →
            difference_of remaining_ids best < difference_of remaining_ids o).

(** Every node has two children or none. *)
Fixpoint both_or_none (t : tree) : Prop :=
  match t with
  | Node _ _ _ _ None None => True
  | Node _ _ _ _ (Some l) (Some r) => both_or_none l ∧ both_or_none r
  | _ => False
  end.

(** The number of nodes with children on the longest path from the root. *)
Fixpoint depth (t : tree) : nat :=
  match t with
  | Node _ _ _ _ None None => 0
  | Node _ _ _ _ l r =>
      S (match l with Some tl => depth tl | None => 0 end
         `max` match r with Some tr => depth tr | None => 0 end)
  end.

(** Every node without children is one of the two expected leaves: one
    identity found, or no question left. *)
Fixpoint leaves_expected (t : tree) : Prop :=
  match t with
  | Node _ _ _ _ None None =>
      t = leaf MSG_NO_QUESTIONS ∨ ∃ x, t = leaf (MSG_IDENTIFIED +:+ to_string x)
  | Node _ _ _ _ l r =>
      match l with Some tl => leaves_expected tl | None => True end ∧
      match r with Some tr => leaves_expected tr | None => True end
  end.

(** The two sets of [o] split [r]: each id of [r] is on exactly one
    side. *)
Definition splits (r : gset Z) (o : Question) : Prop :=
  ∀ x, x ∈ r → (x ∈ positive_ids o ↔ x ∉ negative_ids o).

(** ** A pool and a character file for the examples *)

Definition q1 : Question := Question_new 1 "Is it a princess?" {[1; 2]} {[3; 4]}.
Definition q2 : Question := Question_new 2 "Is it an animal?" {[1]} {[2; 3; 4]}.
Definition h0 : gmap loc Question := {[ 1%positive := q1; 2%positive := q2 ]}.
Definition pool0 : list loc := [1%positive; 2%positive].

Definition e1 : Question := Question_new 1 "Q1" {[1]} {[2; 3]}.
Definition e2 : Question := Question_new 2 "Q2" {[2]} {[1; 3]}.
Definition he : gmap loc Question := {[ 1%positive := e1; 2%positive := e2 ]}.
Definition ht : gmap loc Question := {[ 1%positive := q1; 2%positive := e2 ]}.

(** A pool whose only question has the id 3 on neither side, and its tree
    over the ids 1, 2, 3. *)
Definition hu : gmap loc Question := {[ 1%positive := Question_new 1 "Q1" {[1]} {[2]} ]}.
Definition tu : tree :=
  Node 1 "Q1" {[1]} {[2]}
    (Some (leaf "Character identified: 1"))
    (Some (leaf "Character identified: 2")).

(** The tree of [he] over the ids 1, 2, 3. *)
Definition te : tree :=
  Node 1 "Q1" {[1]} {[2; 3]}
    (Some (leaf "Character identified: 1"))
    (Some (Node 2 "Q2" {[2]} {[1; 3]}
             (Some (leaf "Character identified: 2"))
             (Some (leaf "Character identified: 3")))).

(** A question file with the two questions of [he]. *)
Definition fsq : gmap string (list string) :=
  {[ "questions.csv" :=
       [ "id,text,yes,no";
         question_line 1 "Q1" [1] [2; 3];
         question_line 2 "Q2" [2] [1; 3] ] ]}.

Definition fs0 : gmap string (list string) :=
  {[ "characters.csv" :=
       [ "id,name,image";
         "0,Unknown,unknown.png";
         "1,Mickey Mouse,mickey.png";
         "2,Elsa,elsa.png" ] ]}.

(** ** The outcome of a session as the specification words it *)

Inductive Outcome : Type :=
| Undetermined
| Identified (id : Z)
| Exhausted.

(** The classification by the number of remaining candidates. *)
Definition currentResult_spec (remaining : gset Z) : Outcome :=
  match size remaining with
  | O => Exhausted
  | S O => match set_begin remaining with
           | Some id => Identified id
           | None => Exhausted
           end
  | _ => Undetermined
  end.

(** What the classification asks of [getCharacter]: no value while
    undetermined, the record of the sole id once identified, and no
    character at all when exhausted. *)
Definition getCharacter_classifies (fs : gmap string (list string))
    (s : QuestionTree) : Prop :=
  match currentResult_spec (characters s) with
  | Undetermined => getCharacter fs s = None
  | Identified id =>
      getCharacter fs s = Some (readCharacterByID fs charactersFilename id)
  | Exhausted => ∀ c, getCharacter fs s ≠ Some (Returned c)
  end.

(** ** Notions used by the further properties *)

(** [x] lies on the answered side of every question on the way that
    [answers] takes from [t]: in the positive set for a yes, in the
    negative set for a no. *)
Fixpoint on_path (t : tree) (answers : list bool) (x : Z) {struct answers} : Prop :=
  match answers with
  | [] => True
  | a :: rest =>
      x ∈ (if a then node_positive t else node_negative t) ∧
      (match (if a then node_left t else node_right t) with
       | Some t' => on_path t' rest x
       | None => True
       end)
  end.

(** No answer of [answers] rules [x] out on the way from [root]: [x] is not
    in the negative set where the answer is yes, nor in the positive set
    where it is no. *)
Fixpoint survives (root : option tree) (answers : list bool) (x : Z)
    {struct answers} : Prop :=
  match answers with
  | [] => True
  | a :: rest =>
      match root with
      | None => True
      | Some t =>
          (x ∉ (if a then node_negative t else node_positive t)) ∧
          survives (if a then node_left t else node_right t) rest x
      end
  end.

(** The question ids met on the way that [answers] takes from [root], the
    nodes without children left out. *)
Fixpoint asked (root : option tree) (answers : list bool) {struct answers} : list Z :=
  match answers with
  | [] => []
  | a :: rest =>
      match root with
      | None => []
      | Some t =>
          match node_left t, node_right t with
          | None, None => []
          | _, _ => node_id t :: asked (if a then node_left t else node_right t) rest
          end
      end
  end.

(** The number that the digits of [d] write after the number [acc]. *)
Fixpoint uint_value (d : Decimal.uint) (acc : Z) : Z :=
  match d with
  | Decimal.Nil => acc
  | Decimal.D0 d' => uint_value d' (10 * acc + 0)
  | Decimal.D1 d' => uint_value d' (10 * acc + 1)
  | Decimal.D2 d' => uint_value d' (10 * acc + 2)
  | Decimal.D3 d' => uint_value d' (10 * acc + 3)
  | Decimal.D4 d' => uint_value d' (10 * acc + 4)
  | Decimal.D5 d' => uint_value d' (10 * acc + 5)
  | Decimal.D6 d' => uint_value d' (10 * acc + 6)
  | Decimal.D7 d' => uint_value d' (10 * acc + 7)
  | Decimal.D8 d' => uint_value d' (10 * acc + 8)
  | Decimal.D9 d' => uint_value d' (10 * acc + 9)
  end.

(** [s] has white space only. *)
Fixpoint all_space (s : string) : bool :=
  match s with
  | EmptyString => true
  | String a s' => is_space a && all_space s'
  end.

(** [s] is empty or starts with a character that is no decimal digit. *)
Definition no_leading_digit (s : string) : Prop :=
  match s with
  | EmptyString => True
  | String a _ => digit_of a = None
  end.

(** What a line of the file left in the store: the object at [p] is the
    question that the line reads as. *)
Definition loaded (σ : gmap loc Question) (line : string) (p : loc) : Prop :=
  ∃ q, parse_question line = Some (Returned q) ∧ σ !! p = Some q.

(** The character [d] does not occur in [s]. *)
Fixpoint free_of (d : ascii) (s : string) : bool :=
  match s with
  | EmptyString => true
  | String a s' => if decide (a = d) then false else free_of d s'
  end.

(** The id that [readCharacterByID] reads on a line: [stoi] of the text
    before the first comma. *)
Definition line_id (line : string) : outcome Z :=
  stoi (nth 0 (split_on "," line) "").

(** The line of the character file that holds the record [c]. *)
Definition character_line (c : Character) : string :=
  to_string (char_id c) +:+ "," +:+ name c +:+ "," +:+ image_path c.

(** A record that a line of the file can hold: the id is an [int] and the
    two texts have no comma. *)
Definition writable (c : Character) : Prop :=
  INT_MIN ≤ char_id c ≤ INT_MAX ∧
  free_of "," (name c) = true ∧ free_of "," (image_path c) = true.

(** A text between double quotes. *)
Definition quoted (inner : string) : string :=
  String dquote (inner +:+ String dquote EmptyString).

(** What a line of the question file is written from. *)
Record question_data := mkData {
  d_id : Z;
  d_text : string;
  d_pos : list Z;
  d_neg : list Z
}.

Definition data_line (d : question_data) : string :=
  question_line (d_id d) (d_text d) (d_pos d) (d_neg d).

Definition data_question (d : question_data) : Question :=
  Question_new (d_id d) (d_text d) (list_to_set (d_pos d)) (list_to_set (d_neg d)).

(** Data that a line can hold: ids in the range of [int], a text that is
    not empty, has no comma and starts with no quote, and set texts of a
    length that [size_t] can count. *)
Definition data_ok (d : question_data) : Prop :=
  INT_MIN ≤ d_id d ≤ INT_MAX ∧
  free_of "," (d_text d) = true ∧
  (∃ f, front (d_text d) = Some f ∧ f ≠ dquote) ∧
  (∀ x, x ∈ d_pos d → INT_MIN ≤ x ≤ INT_MAX) ∧
  (∀ x, x ∈ d_neg d → INT_MIN ≤ x ≤ INT_MAX) ∧
  Z.of_nat (String.length (set_literal (d_pos d))) < 2 ^ 64 ∧
  Z.of_nat (String.length (set_literal (d_neg d))) < 2 ^ 64.

#[global] Instance pool_valid_dec h questions : Decision (pool_valid h questions).
Proof.
  refine (cast_if (decide (Forall (λ q, is_Some (h !! q)) questions)));
    unfold pool_valid; by rewrite <- Forall_forall.
Defined.

#[global] Instance splits_dec r o : Decision (splits r o).
Proof.
  refine (cast_if (decide (set_Forall
            (λ x, x ∈ positive_ids o ↔ x ∉ negative_ids o) r)));
    unfold splits, set_Forall in *; done.
Defined.

(** * Properties *)

(** ** Machine integers *)

Lemma wrap_int_id z : INT_MIN ≤ z ≤ INT_MAX → wrap_int z = z.
Proof.
  unfold INT_MIN, INT_MAX, wrap_int. intros [Hlo Hhi].
  rewrite Z.mod_small; [ring | split; [lia|]].
  change (2 ^ 32) with 4294967296. change (2 ^ 31) with 2147483648. lia.
Qed.

Lemma size_inter_le (r X : gset Z) : (size (r ∩ X) ≤ size r)%nat.
Proof. apply subseteq_size, intersection_subseteq_l. Qed.

(** Below [INT_MAX] remaining ids, no conversion and no operation of the
    scoring line wraps. *)
Lemma difference_of_balance remaining_ids q :
  Z.of_nat (size remaining_ids) < INT_MAX →
  difference_of remaining_ids q = balance_score remaining_ids q ∧
  0 ≤ balance_score remaining_ids q < INT_MAX.
Proof.
  intros Hsz. unfold difference_of, balance_score, int_abs, int_sub, int_of_size.
  pose proof (size_inter_le remaining_ids (positive_ids q)) as Hp.
  pose proof (size_inter_le remaining_ids (negative_ids q)) as Hn.
  cbv zeta. unfold INT_MAX in *.
  rewrite !(wrap_int_id (Z.of_nat _)) by (unfold INT_MIN, INT_MAX; lia).
  rewrite (wrap_int_id (_ - _)) by (unfold INT_MIN, INT_MAX; lia).
  rewrite wrap_int_id by (unfold INT_MIN, INT_MAX; lia).
  split; [done | lia].
Qed.

(** ** The scoring loop *)

Lemma pool_valid_cons h q rest :
  pool_valid h (q :: rest) → is_Some (h !! q) ∧ pool_valid h rest.
Proof.
  intros Hv. split; [apply Hv, elem_of_cons; by left|].
  intros q' Hq'. apply Hv, elem_of_cons. by right.
Qed.

Lemma pool_valid_remove h best questions :
  pool_valid h questions → pool_valid h (remove_question best questions).
Proof.
  intros Hv q Hq. apply Hv. unfold remove_question in Hq.
  by apply list_elem_of_filter in Hq as [_ ?].
Qed.

(** The loop from a state [(b, m)]: either nothing in the list is below [m]
    and the state is returned unchanged, or the first least object of the
    list is below [m] and is returned. *)
Lemma scan_spec h remaining_ids questions b m :
  pool_valid h questions →
  (scan h remaining_ids questions b m = Some b ∧
   ∀ q o, q ∈ questions → h !! q = Some o → m ≤ difference_of remaining_ids o) ∨
  (∃ i best_question best,
     scan h remaining_ids questions b m = Some (Some best_question) ∧
     first_min h remaining_ids questions i best_question best ∧
     difference_of remaining_ids best < m).
Proof.
  revert b m. induction questions as [|q rest IH]; intros b m Hv.
  - left. split; [done|]. intros q o Hq. by apply elem_of_nil in Hq.
  - apply pool_valid_cons in Hv as [[o Ho] Hv]. simpl. rewrite Ho.
    case_decide as Hd.
    + destruct (IH (Some q) (difference_of remaining_ids o) Hv)
        as [[Hs Hall]|(i & bq & bo & Hs & (Hi & Hbo & Hmin & Hfirst) & Hlt)].
      * right. exists 0%nat, q, o. split; [done|]. split; [|done].
        split; [done|]. split; [done|]. split.
        -- intros [|j] q' o' Hj Ho'; simpl in Hj.
           ++ injection Hj as <-. rewrite Ho in Ho'. by injection Ho' as <-.
           ++ apply (Hall q'); [|done]. by eapply list_elem_of_lookup_2.
        -- intros j q' o' Hj. lia.
      * right. exists (S i), bq, bo. split; [done|]. split; [|lia].
        split; [done|]. split; [done|]. split.
        -- intros [|j] q' o' Hj Ho'; simpl in Hj.
           ++ injection Hj as <-. rewrite Ho in Ho'. injection Ho' as <-. lia.
           ++ by eapply Hmin.
        -- intros [|j] q' o' Hlt' Hj Ho'; simpl in Hj.
           ++ injection Hj as <-. rewrite Ho in Ho'. by injection Ho' as <-.
           ++ eapply Hfirst; [|done..]. lia.
    + destruct (IH b m Hv)
        as [[Hs Hall]|(i & bq & bo & Hs & (Hi & Hbo & Hmin & Hfirst) & Hlt)].
      * left. split; [done|]. intros q' o' [->|Hq']%elem_of_cons Ho'.
        -- rewrite Ho in Ho'. injection Ho' as <-. lia.
        -- by eapply Hall.
      * right. exists (S i), bq, bo. split; [done|]. split; [|done].
        split; [done|]. split; [done|]. split.
        -- intros [|j] q' o' Hj Ho'; simpl in Hj.
           ++ injection Hj as <-. rewrite Ho in Ho'. injection Ho' as <-. lia.
           ++ by eapply Hmin.
        -- intros [|j] q' o' Hlt' Hj Ho'; simpl in Hj.
           ++ injection Hj as <-. rewrite Ho in Ho'. injection Ho' as <-. lia.
           ++ eapply Hfirst; [|done..]. lia.
Qed.

(** With a pool that is not empty and fewer than [INT_MAX] remaining ids,
    the loop ends with the first least object of the pool. *)
Lemma select_best_spec h remaining_ids questions :
  pool_valid h questions →
  questions ≠ [] →
  Z.of_nat (size remaining_ids) < INT_MAX →
  ∃ i best_question best,
    select_best h remaining_ids questions = Some (Some best_question) ∧
    first_min h remaining_ids questions i best_question best.
Proof.
  intros Hv Hne Hsz. unfold select_best.
  destruct (scan_spec h remaining_ids questions None INT_MAX Hv)
    as [[_ Hall]|(i & bq & bo & Hs & Hfm & _)].
  - destruct questions as [|q rest]; [done|].
    apply pool_valid_cons in Hv as [[o Ho] _].
    specialize (Hall q o (list_elem_of_here _ _) Ho).
    destruct (difference_of_balance remaining_ids o Hsz) as [Heq Hrange].
    rewrite Heq in Hall. lia.
  - by exists i, bq, bo.
Qed.

(** ** [buildTree] *)

Lemma buildTree_eq h remaining_ids questions :
  buildTree h remaining_ids questions = buildTree_body h remaining_ids questions.
Proof.
  unfold buildTree_body. funelim (buildTree h remaining_ids questions).
  all: try match goal with H : bool_decide (size _ = _) = _ |- _ => rewrite H end.
  all: try match goal with H : bool_decide (_ = []) = _ |- _ => rewrite H end.
  all: try match goal with H : select_best _ _ _ = _ |- _ => rewrite H end.
  all: try match goal with H : _ !! _ = _ |- _ => rewrite H end.
  all: done.
Qed.

Lemma size_1_singleton (r : gset Z) : size r = 1%nat → ∃ x, r = {[x]}.
Proof. intros [x Hx]%size_1_elem_of. exists x. by apply leibniz_equiv. Qed.

Lemma set_begin_singleton x : set_begin {[x]} = Some x.
Proof. unfold set_begin. by rewrite elements_singleton. Qed.

Lemma select_best_is_Some h remaining_ids questions :
  pool_valid h questions → is_Some (select_best h remaining_ids questions).
Proof.
  intros Hv. unfold select_best.
  destruct (scan_spec h remaining_ids questions None INT_MAX Hv)
    as [[-> _]|(i & bq & bo & -> & _)]; eauto.
Qed.

(** Induction over the calls of [buildTree]: one case for each [return]. *)
Lemma buildTree_cases (P : gset Z → list loc → tree → Prop) h :
  (∀ r qs x, size r = 1%nat → set_begin r = Some x →
     P r qs (leaf (MSG_IDENTIFIED +:+ to_string x))) →
  (∀ r, size r ≠ 1%nat → P r [] (leaf MSG_NO_QUESTIONS)) →
  (∀ r qs, size r ≠ 1%nat → qs ≠ [] → select_best h r qs = Some None →
     P r qs (leaf MSG_UNABLE)) →
  (∀ r qs bq best l rt,
     size r ≠ 1%nat → qs ≠ [] →
     select_best h r qs = Some (Some bq) → h !! bq = Some best →
     buildTree h (r ∩ positive_ids best) (remove_question bq qs) = Some l →
     P (r ∩ positive_ids best) (remove_question bq qs) l →
     buildTree h (r ∩ negative_ids best) (remove_question bq qs) = Some rt →
     P (r ∩ negative_ids best) (remove_question bq qs) rt →
     P r qs (Node (q_id best) (text best) (positive_ids best) (negative_ids best)
                  (Some l) (Some rt))) →
  ∀ r qs t, buildTree h r qs = Some t → P r qs t.
Proof.
  intros Hid Hnoq Hun Hstep r qs. revert r.
  remember (length qs) as n eqn:Hn. revert qs Hn.
  induction (lt_wf n) as [n _ IH]. intros qs -> r t.
  rewrite buildTree_eq. unfold buildTree_body.
  case_bool_decide as Hsz.
  { destruct (set_begin r) as [x|] eqn:Hx; simpl; [|done].
    intros [= <-]. by apply Hid. }
  case_bool_decide as Hqs.
  { intros [= <-]. subst qs. by apply Hnoq. }
  destruct (select_best h r qs) as [[bq|]|] eqn:Hsel; [| |done].
  - destruct (h !! bq) as [best|] eqn:Hbest; [|done]. cbv zeta.
    pose proof (remove_question_length _ _ (select_best_in _ _ _ _ Hsel)) as Hlen.
    destruct (buildTree h (r ∩ positive_ids best) _) as [l|] eqn:Hl; simpl; [|done].
    destruct (buildTree h (r ∩ negative_ids best) _) as [rt|] eqn:Hr; simpl; [|done].
    intros [= <-]. eapply Hstep; eauto.
  - intros [= <-]. by apply Hun.
Qed.

(** With a valid pool [buildTree] returns a tree. *)
Lemma buildTree_total h remaining_ids questions :
  pool_valid h questions → is_Some (buildTree h remaining_ids questions).
Proof.
  revert remaining_ids.
  remember (length questions) as n eqn:Hn. revert questions Hn.
  induction (lt_wf n) as [n _ IH]. intros questions -> r Hv.
  rewrite buildTree_eq. unfold buildTree_body.
  case_bool_decide as Hsz.
  { destruct (size_1_singleton _ Hsz) as [x ->].
    rewrite set_begin_singleton. simpl. eauto. }
  case_bool_decide as Hqs; [eauto|].
  destruct (select_best_is_Some h r questions Hv) as [[bq|] Hsel];
    rewrite Hsel; [|eauto].
  pose proof (select_best_in _ _ _ _ Hsel) as Hin.
  destruct (Hv bq Hin) as [best Hbest]. rewrite Hbest. cbv zeta.
  pose proof (remove_question_length _ _ Hin) as Hlen.
  pose proof (pool_valid_remove h bq questions Hv) as Hv'.
  destruct (IH _ Hlen _ eq_refl (r ∩ positive_ids best) Hv') as [l ->].
  destruct (IH _ Hlen _ eq_refl (r ∩ negative_ids best) Hv') as [rt ->].
  simpl. eauto.
Qed.

(** The non-terminal step, once the winner is known. *)
Lemma buildTree_step h remaining_ids questions best_question best :
  pool_valid h questions →
  size remaining_ids ≠ 1%nat →
  questions ≠ [] →
  select_best h remaining_ids questions = Some (Some best_question) →
  h !! best_question = Some best →
  ∃ l rt,
    buildTree h (remaining_ids ∩ positive_ids best)
              (remove_question best_question questions) = Some l ∧
    buildTree h (remaining_ids ∩ negative_ids best)
              (remove_question best_question questions) = Some rt ∧
    buildTree h remaining_ids questions =
      Some (Node (q_id best) (text best) (positive_ids best) (negative_ids best)
                 (Some l) (Some rt)).
Proof.
  intros Hv Hsz Hqs Hsel Hbest.
  pose proof (pool_valid_remove h best_question questions Hv) as Hv'.
  destruct (buildTree_total h (remaining_ids ∩ positive_ids best) _ Hv') as [l Hl].
  destruct (buildTree_total h (remaining_ids ∩ negative_ids best) _ Hv') as [rt Hr].
  exists l, rt. split; [done|]. split; [done|].
  rewrite buildTree_eq. unfold buildTree_body.
  rewrite bool_decide_eq_false_2 by done.
  rewrite bool_decide_eq_false_2 by done.
  rewrite Hsel, Hbest. cbv zeta. rewrite Hl, Hr. done.
Qed.

Lemma buildTree_both_or_none h remaining_ids questions t :
  buildTree h remaining_ids questions = Some t → both_or_none t.
Proof.
  revert remaining_ids questions t.
  apply (buildTree_cases (λ _ _ t, both_or_none t)); simpl; auto.
Qed.

Lemma buildTree_depth h remaining_ids questions t :
  buildTree h remaining_ids questions = Some t → (depth t ≤ length questions)%nat.
Proof.
  revert remaining_ids questions t.
  apply (buildTree_cases (λ _ qs t, (depth t ≤ length qs)%nat)); simpl; try lia.
  intros r qs bq best l rt _ _ Hsel _ _ Hl _ Hr.
  pose proof (remove_question_length _ _ (select_best_in _ _ _ _ Hsel)). lia.
Qed.


Lemma inter_bound (r X : gset Z) :
  Z.of_nat (size r) < INT_MAX → Z.of_nat (size (r ∩ X)) < INT_MAX.
Proof. pose proof (size_inter_le r X). lia. Qed.

Lemma buildTree_leaves_expected h remaining_ids questions t :
  buildTree h remaining_ids questions = Some t →
  pool_valid h questions →
  Z.of_nat (size remaining_ids) < INT_MAX →
  leaves_expected t.
Proof.
  revert remaining_ids questions t.
  apply (buildTree_cases
           (λ r qs t, pool_valid h qs → Z.of_nat (size r) < INT_MAX → leaves_expected t)).
  - intros r qs x _ _ _ _. simpl. right. by exists x.
  - intros r _ _ _. simpl. by left.
  - intros r qs _ Hqs Hsel Hv Hsz.
    destruct (select_best_spec h r qs Hv Hqs Hsz) as (i & bq & bo & Hsel' & _).
    congruence.
  - intros r qs bq best l rt _ _ _ _ _ IHl _ IHr Hv Hsz. simpl.
    split; [apply IHl | apply IHr];
      auto using pool_valid_remove, inter_bound.
Qed.

Lemma remove_question_absent best questions :
  best ∉ questions → remove_question best questions = questions.
Proof.
  unfold remove_question. induction questions as [|q rest IH]; intros Hnin; [done|].
  apply not_elem_of_cons in Hnin as [Hne Hnin].
  rewrite filter_cons_True by done. f_equal. auto.
Qed.

Lemma remove_question_NoDup best questions :
  NoDup questions → best ∈ questions →
  S (length (remove_question best questions)) = length questions.
Proof.
  induction 1 as [|q rest Hq Hnd IH]; intros Hin.
  - by apply elem_of_nil in Hin.
  - apply elem_of_cons in Hin as [->|Hin].
    + unfold remove_question. rewrite filter_cons_False by (intros Hne; by apply Hne).
      fold (remove_question q rest). by rewrite remove_question_absent.
    + unfold remove_question. rewrite filter_cons_True by (intros ->; done).
      fold (remove_question best rest). simpl. f_equal. auto.
Qed.

(** On an empty set every question scores 0. *)
Lemma difference_of_empty q : difference_of ∅ q = 0.
Proof.
  unfold difference_of. rewrite !intersection_empty_l_L, size_empty. reflexivity.
Qed.

Lemma scan_empty_keeps h questions b :
  pool_valid h questions → scan h ∅ questions b 0 = Some b.
Proof.
  induction questions as [|q rest IH]; intros Hv; [done|].
  apply pool_valid_cons in Hv as [[o Ho] Hv]. simpl. rewrite Ho.
  rewrite difference_of_empty. rewrite decide_False by lia. auto.
Qed.

Lemma select_best_empty h q rest :
  pool_valid h (q :: rest) → select_best h ∅ (q :: rest) = Some (Some q).
Proof.
  intros [[o Ho] Hv]%pool_valid_cons. unfold select_best. simpl. rewrite Ho.
  rewrite difference_of_empty. rewrite decide_True by (unfold INT_MAX; lia).
  by apply scan_empty_keeps.
Qed.

(** ** The scenarios of the specification, run on the embedding *)

(** Balance: the question that splits {1,2,3,4} evenly wins over the one
    that splits it 1 to 3, also when it comes second in the pool. *)
Example balance_scenario :
  select_best h0 {[1; 2; 3; 4]} [2%positive; 1%positive] = Some (Some 1%positive) ∧
  select_best h0 {[1; 2; 3; 4]} pool0 = Some (Some 1%positive).
Proof. split; vm_compute; reflexivity. Qed.

(** A tie keeps the earlier pointer: over {2,3} both questions score 0. *)
Example tie_scenario :
  difference_of {[2; 3]} q1 = 0 ∧ difference_of {[2; 3]} e2 = 0 ∧
  select_best ht {[2; 3]} pool0 = Some (Some 1%positive) ∧
  select_best ht {[2; 3]} [2%positive; 1%positive] = Some (Some 2%positive).
Proof. repeat split; vm_compute; reflexivity. Qed.

(** End to end over the universe {1,2,3}. *)
Example end_to_end_scenario :
  ∃ t, buildTree he {[1; 2; 3]} pool0 = Some t ∧
       node_id t = 1 ∧
       (characters <$> setAnswers [true] (mkQuestionTree (Some t) {[1; 2; 3]}))
         = Some {[1]} ∧
       (characters <$> setAnswers [false] (mkQuestionTree (Some t) {[1; 2; 3]}))
         = Some {[2; 3]} ∧
       (setAnswers [false] (mkQuestionTree (Some t) {[1; 2; 3]}) ≫= getQuestionText)
         = Some "Q2" ∧
       (characters <$> setAnswers [false; true] (mkQuestionTree (Some t) {[1; 2; 3]}))
         = Some {[2]} ∧
       (characters <$> setAnswers [false; false] (mkQuestionTree (Some t) {[1; 2; 3]}))
         = Some {[3]}.
Proof. eexists. repeat split; vm_compute; reflexivity. Qed.

(** An id on neither side of the question is gone after either answer. *)
Example unreachable_id_scenario :
  let h := ({[ 1%positive := Question_new 1 "Q1" {[1]} {[2]} ]} : gmap loc Question) in
  ∃ t, buildTree h {[1; 2; 3]} [1%positive] = Some t ∧
       node_left t = Some (leaf "Character identified: 1") ∧
       node_right t = Some (leaf "Character identified: 2").
Proof. eexists. repeat split; vm_compute; reflexivity. Qed.


(** ** The claims about [buildTree] *)

(** C1. In the selection step every question of the pool is scored by the
    absolute difference of the sizes of the two intersections with the
    remaining ids, and the question chosen is the first one of the pool, in
    its order, with the least score: nothing scores lower, and everything
    before it scores strictly higher.  It is the question of the node that
    [buildTree] returns. *)
Theorem select_best_first_lowest h remaining_ids questions :
  pool_valid h questions →
  questions ≠ [] →
  Z.of_nat (size remaining_ids) < INT_MAX →
  (∀ q o, q ∈ questions → h !! q = Some o →
          difference_of remaining_ids o = balance_score remaining_ids o) ∧
  ∃ i best_question best,
    select_best h remaining_ids questions = Some (Some best_question) ∧
    questions !! i = Some best_question ∧
    h !! best_question = Some best ∧
    (∀ j q o, questions !! j = Some q → h !! q = Some o →
              balance_score remaining_ids best ≤ balance_score remaining_ids o) ∧
    (∀ j q o, (j < i)%nat → questions !! j = Some q → h !! q = Some o →
              balance_score remaining_ids best < balance_score remaining_ids o) ∧
    (size remaining_ids ≠ 1%nat →
     ∃ l rt, buildTree h remaining_ids questions =
               Some (Node (q_id best) (text best) (positive_ids best)
                          (negative_ids best) (Some l) (Some rt))).
Proof.
  intros Hv Hqs Hsz.
  assert (∀ o, difference_of remaining_ids o = balance_score remaining_ids o) as Heq.
  { intros o. by destruct (difference_of_balance remaining_ids o Hsz). }
  split; [auto|].
  destruct (select_best_spec h remaining_ids questions Hv Hqs Hsz)
    as (i & bq & best & Hsel & Hi & Hbest & Hmin & Hfirst).
  exists i, bq, best. repeat split; try done.
  - intros j q o Hj Ho. rewrite <- !Heq. by eapply Hmin.
  - intros j q o Hlt Hj Ho. rewrite <- !Heq. by eapply Hfirst.
  - intros Hne.
    destruct (buildTree_step h remaining_ids questions bq best Hv Hne Hqs Hsel Hbest)
      as (l & rt & _ & _ & Ht).
    by exists l, rt.
Qed.

Lemma select_best_first_lowest_witness :
  pool_valid h0 pool0 ∧ pool0 ≠ [] ∧
  Z.of_nat (size ({[1; 2; 3; 4]} : gset Z)) < INT_MAX ∧
  ∃ best_question, select_best h0 {[1; 2; 3; 4]} pool0 = Some (Some best_question).
Proof.
  assert (pool_valid h0 pool0) as Hv by (apply (bool_decide_unpack _); vm_compute; exact I).
  assert (pool0 ≠ []) as Hne by discriminate.
  assert (Z.of_nat (size ({[1; 2; 3; 4]} : gset Z)) < INT_MAX) as Hsz
    by (vm_compute; reflexivity).
  repeat split; try done.
  destruct (select_best_first_lowest h0 {[1; 2; 3; 4]} pool0 Hv Hne Hsz)
    as (_ & i & bq & best & Hsel & _).
  by exists bq.
Defined.

(** C2. The terminal cases in their order: with exactly one remaining id the
    result is the leaf (id -1, empty sets, no children) whose text names that
    id, whatever the pool is, the empty pool included; otherwise, with an
    empty pool, it is the leaf that says no question is left. *)
Theorem buildTree_terminal_cases h remaining_ids questions :
  (∀ x, size remaining_ids = 1%nat → x ∈ remaining_ids →
        buildTree h remaining_ids questions =
          Some (Node (-1) ("Character identified: " +:+ to_string x) ∅ ∅ None None) ∧
        buildTree h remaining_ids [] = buildTree h remaining_ids questions) ∧
  (size remaining_ids ≠ 1%nat → questions = [] →
   buildTree h remaining_ids questions =
     Some (Node (-1) "No more questions. Unable to identify." ∅ ∅ None None)).
Proof.
  split.
  - intros x Hsz Hx. destruct (size_1_singleton _ Hsz) as [y ->].
    apply elem_of_singleton in Hx as ->.
    rewrite !buildTree_eq. unfold buildTree_body.
    rewrite !bool_decide_eq_true_2 by done.
    by rewrite set_begin_singleton.
  - intros Hsz ->. rewrite buildTree_eq. unfold buildTree_body.
    rewrite bool_decide_eq_false_2 by done.
    by rewrite bool_decide_eq_true_2.
Qed.

Lemma buildTree_terminal_cases_witness :
  buildTree h0 {[7]} [] = Some (leaf "Character identified: 7") ∧
  buildTree h0 {[7]} pool0 = Some (leaf "Character identified: 7") ∧
  buildTree h0 {[1; 2]} [] = Some (leaf "No more questions. Unable to identify.").
Proof.
  split; [|split].
  - apply (proj1 (buildTree_terminal_cases h0 {[7]} []) 7); vm_compute; reflexivity.
  - apply (proj1 (buildTree_terminal_cases h0 {[7]} pool0) 7); vm_compute; reflexivity.
  - apply (proj2 (buildTree_terminal_cases h0 {[1; 2]} []));
      [vm_compute; discriminate | reflexivity].
Defined.

(** C3. A step that is not terminal returns a node with the id, the text and
    the whole positive and negative sets of the winner; the pool of the two
    recursive calls holds the pointers of the pool other than the winner, in
    their order; the children are the trees built for the remaining ids on
    the positive and on the negative side.  Every node of the tree has both
    children or none. *)
Theorem buildTree_internal_node h remaining_ids questions :
  pool_valid h questions →
  size remaining_ids ≠ 1%nat →
  questions ≠ [] →
  Z.of_nat (size remaining_ids) < INT_MAX →
  ∃ best_question best l rt,
    select_best h remaining_ids questions = Some (Some best_question) ∧
    h !! best_question = Some best ∧
    (∀ q, q ∈ remove_question best_question questions ↔
          q ∈ questions ∧ q ≠ best_question) ∧
    remove_question best_question questions `sublist_of` questions ∧
    buildTree h (remaining_ids ∩ positive_ids best)
              (remove_question best_question questions) = Some l ∧
    buildTree h (remaining_ids ∩ negative_ids best)
              (remove_question best_question questions) = Some rt ∧
    buildTree h remaining_ids questions =
      Some (Node (q_id best) (text best) (positive_ids best) (negative_ids best)
                 (Some l) (Some rt)) ∧
    both_or_none (Node (q_id best) (text best) (positive_ids best)
                       (negative_ids best) (Some l) (Some rt)).
Proof.
  intros Hv Hsz Hqs Hbound.
  destruct (select_best_spec h remaining_ids questions Hv Hqs Hbound)
    as (i & bq & best & Hsel & _ & Hbest & _).
  destruct (buildTree_step h remaining_ids questions bq best Hv Hsz Hqs Hsel Hbest)
    as (l & rt & Hl & Hr & Ht).
  exists bq, best, l, rt.
  split; [done|]. split; [done|]. split.
  { intros q. unfold remove_question. rewrite list_elem_of_filter. tauto. }
  split; [apply sublist_filter|].
  split; [done|]. split; [done|]. split; [done|].
  by eapply buildTree_both_or_none.
Qed.

Lemma buildTree_internal_node_witness :
  pool_valid h0 pool0 ∧ size ({[1; 2; 3; 4]} : gset Z) ≠ 1%nat ∧ pool0 ≠ [] ∧
  Z.of_nat (size ({[1; 2; 3; 4]} : gset Z)) < INT_MAX ∧
  ∃ t, buildTree h0 {[1; 2; 3; 4]} pool0 = Some t ∧ both_or_none t.
Proof.
  assert (pool_valid h0 pool0) as Hv by (apply (bool_decide_unpack _); vm_compute; exact I).
  assert (size ({[1; 2; 3; 4]} : gset Z) ≠ 1%nat) as Hsz by (vm_compute; discriminate).
  assert (pool0 ≠ []) as Hne by discriminate.
  assert (Z.of_nat (size ({[1; 2; 3; 4]} : gset Z)) < INT_MAX) as Hb
    by (vm_compute; reflexivity).
  repeat split; try done.
  destruct (buildTree_internal_node h0 {[1; 2; 3; 4]} pool0 Hv Hsz Hne Hb)
    as (bq & best & l & rt & _ & _ & _ & _ & _ & _ & Ht & Hfull).
  eauto.
Defined.

(** C7 as stated fails: on an empty set of remaining ids and a pool that is
    not empty, [buildTree] does not return a leaf; it selects the first
    question of the pool and recurses. *)
Lemma buildTree_empty_counterexample :
  buildTree h0 ∅ pool0 =
    Some (Node 1 "Is it a princess?" {[1; 2]} {[3; 4]}
            (Some (Node 2 "Is it an animal?" {[1]} {[2; 3; 4]}
                     (Some (leaf MSG_NO_QUESTIONS)) (Some (leaf MSG_NO_QUESTIONS))))
            (Some (Node 2 "Is it an animal?" {[1]} {[2; 3; 4]}
                     (Some (leaf MSG_NO_QUESTIONS)) (Some (leaf MSG_NO_QUESTIONS))))) ∧
  ¬ ∃ msg, buildTree h0 ∅ pool0 = Some (leaf msg).
Proof.
  assert (buildTree h0 ∅ pool0 =
    Some (Node 1 "Is it a princess?" {[1; 2]} {[3; 4]}
            (Some (Node 2 "Is it an animal?" {[1]} {[2; 3; 4]}
                     (Some (leaf MSG_NO_QUESTIONS)) (Some (leaf MSG_NO_QUESTIONS))))
            (Some (Node 2 "Is it an animal?" {[1]} {[2; 3; 4]}
                     (Some (leaf MSG_NO_QUESTIONS)) (Some (leaf MSG_NO_QUESTIONS))))))
    as Heq by (vm_compute; reflexivity).
  split; [exact Heq|]. intros [msg Hmsg]. rewrite Heq in Hmsg. discriminate.
Qed.

(** C7, amended.  [buildTree] has no case for an empty set of remaining ids:
    with an empty pool it returns the leaf that says no question is left;
    with a pool that is not empty every question scores 0, the first
    pointer of the pool wins, and the node of that question gets as both
    children the tree built for the empty set and the rest of the pool. *)
Theorem buildTree_empty_remaining h q rest best :
  pool_valid h (q :: rest) →
  h !! q = Some best →
  buildTree h ∅ [] = Some (leaf MSG_NO_QUESTIONS) ∧
  select_best h ∅ (q :: rest) = Some (Some q) ∧
  ∃ t, buildTree h ∅ (remove_question q (q :: rest)) = Some t ∧
       buildTree h ∅ (q :: rest) =
         Some (Node (q_id best) (text best) (positive_ids best) (negative_ids best)
                    (Some t) (Some t)).
Proof.
  intros Hv Hbest.
  pose proof (select_best_empty h q rest Hv) as Hsel.
  split; [|split; [done|]].
  { rewrite buildTree_eq. unfold buildTree_body. rewrite size_empty.
    rewrite bool_decide_eq_false_2 by done. by rewrite bool_decide_eq_true_2. }
  assert (size (∅ : gset Z) ≠ 1%nat) as Hsz by (by rewrite size_empty).
  destruct (buildTree_step h ∅ (q :: rest) q best Hv Hsz ltac:(done) Hsel Hbest)
    as (l & rt & Hl & Hr & Ht).
  rewrite intersection_empty_l_L in Hl, Hr.
  assert (rt = l) as -> by congruence.
  by exists l.
Qed.

Lemma buildTree_empty_remaining_witness :
  pool_valid h0 pool0 ∧ h0 !! 1%positive = Some q1 ∧
  ∃ t, buildTree h0 ∅ pool0 =
         Some (Node 1 "Is it a princess?" {[1; 2]} {[3; 4]} (Some t) (Some t)).
Proof.
  assert (pool_valid h0 pool0) as Hv by (apply (bool_decide_unpack _); vm_compute; exact I).
  assert (h0 !! 1%positive = Some q1) as Hq by (vm_compute; reflexivity).
  split; [done|]. split; [done|].
  destruct (buildTree_empty_remaining h0 1%positive [2%positive] q1 Hv Hq)
    as (_ & _ & t & _ & Ht).
  by exists t.
Defined.

(** C9. When the scoring loop runs over a pool that is not empty, every
    score is an [int] from 0 up to, and not including, [INT_MAX], the first
    comparison with the initial minimum succeeds, and the loop ends with a
    question of the pool: the branch for a null [best_question] is not
    taken, and [buildTree] returns the node of a question. *)
Theorem unable_branch_unreachable h remaining_ids questions :
  pool_valid h questions →
  questions ≠ [] →
  Z.of_nat (size remaining_ids) < INT_MAX →
  (∀ q o, q ∈ questions → h !! q = Some o →
          0 ≤ difference_of remaining_ids o < INT_MAX) ∧
  select_best h remaining_ids questions ≠ Some None ∧
  (∃ best_question,
     select_best h remaining_ids questions = Some (Some best_question) ∧
     best_question ∈ questions) ∧
  (size remaining_ids ≠ 1%nat →
   ∃ t, buildTree h remaining_ids questions = Some t ∧
        node_left t ≠ None ∧ node_right t ≠ None).
Proof.
  intros Hv Hqs Hsz.
  destruct (select_best_spec h remaining_ids questions Hv Hqs Hsz)
    as (i & bq & best & Hsel & _ & Hbest & _).
  split; [|split; [|split]].
  - intros q o _ _. destruct (difference_of_balance remaining_ids o Hsz) as [-> ?]. done.
  - by rewrite Hsel.
  - exists bq. split; [done|]. by eapply select_best_in.
  - intros Hne.
    destruct (buildTree_step h remaining_ids questions bq best Hv Hne Hqs Hsel Hbest)
      as (l & rt & _ & _ & Ht).
    eexists. split; [exact Ht|]. done.
Qed.

Lemma unable_branch_unreachable_witness :
  pool_valid h0 pool0 ∧ pool0 ≠ [] ∧
  Z.of_nat (size all_characters) < INT_MAX ∧
  select_best h0 all_characters pool0 ≠ Some None.
Proof.
  assert (pool_valid h0 pool0) as Hv by (apply (bool_decide_unpack _); vm_compute; exact I).
  assert (pool0 ≠ []) as Hne by discriminate.
  assert (Z.of_nat (size all_characters) < INT_MAX) as Hsz by (vm_compute; reflexivity).
  split; [done|]. split; [done|]. split; [done|].
  exact (proj1 (proj2 (unable_branch_unreachable h0 all_characters pool0 Hv Hne Hsz))).
Defined.

(** C10. [buildTree] returns on every set of remaining ids, the empty one
    included: the pool of the recursive calls is strictly shorter than the
    pool of the call, shorter by exactly one when no pointer occurs twice in
    the pool, so no path of the tree has more nodes with children than the
    pool has pointers, and the paths end in the leaf of one remaining id or
    in the leaf of the empty pool. *)
Theorem buildTree_terminates h remaining_ids questions :
  pool_valid h questions →
  (∃ t, buildTree h remaining_ids questions = Some t ∧
        (depth t ≤ length questions)%nat ∧
        (Z.of_nat (size remaining_ids) < INT_MAX → leaves_expected t)) ∧
  (∀ best_question,
     select_best h remaining_ids questions = Some (Some best_question) →
     (length (remove_question best_question questions) < length questions)%nat ∧
     (NoDup questions →
      S (length (remove_question best_question questions)) = length questions)).
Proof.
  intros Hv. split.
  - destruct (buildTree_total h remaining_ids questions Hv) as [t Ht].
    exists t. split; [done|]. split; [by eapply buildTree_depth|].
    intros Hsz. by eapply buildTree_leaves_expected.
  - intros bq Hsel. pose proof (select_best_in _ _ _ _ Hsel) as Hin.
    split; [by apply remove_question_length|].
    intros Hnd. by apply remove_question_NoDup.
Qed.

Lemma buildTree_terminates_witness :
  pool_valid h0 pool0 ∧
  ∃ t, buildTree h0 ∅ pool0 = Some t ∧ (depth t ≤ 2)%nat.
Proof.
  assert (pool_valid h0 pool0) as Hv by (apply (bool_decide_unpack _); vm_compute; exact I).
  split; [done|].
  destruct (buildTree_terminates h0 ∅ pool0 Hv) as [(t & Ht & Hd & _) _].
  by exists t.
Defined.

(** ** The claims about the session *)

Lemma setAnswer_characters a s s' :
  setAnswer a s = Some s' → characters s' ⊆ characters s.
Proof.
  unfold setAnswer. destruct (root s) as [r|]; simpl; [|done].
  destruct a; intros [= <-]; simpl; apply subseteq_difference_l; done.
Qed.

Lemma setAnswers_characters answers s s' :
  setAnswers answers s = Some s' → characters s' ⊆ characters s.
Proof.
  revert s. induction answers as [|a rest IH]; intros s; simpl.
  - by intros [= <-].
  - destruct (setAnswer a s) as [s1|] eqn:H1; simpl; [|done].
    intros Hrest. etrans; [by apply IH|]. by eapply setAnswer_characters.
Qed.

(** C4. With a root that is not null, [setAnswer(true)] removes the negative
    set of that root from the candidates and moves to its left child, and
    [setAnswer(false)] removes its positive set and moves to its right
    child: the sets are those of the root before the move. *)
Theorem setAnswer_uses_current_root s id txt pos_ids neg_ids l r :
  root s = Some (Node id txt pos_ids neg_ids l r) →
  setAnswer true s = Some (mkQuestionTree l (characters s ∖ neg_ids)) ∧
  setAnswer false s = Some (mkQuestionTree r (characters s ∖ pos_ids)).
Proof. intros Hroot. unfold setAnswer. rewrite Hroot. done. Qed.

Lemma setAnswer_uses_current_root_witness :
  let n := Node 1 "Is it a princess?" {[1; 2]} {[3; 4; 5]}
                (Some (leaf "yes")) (Some (leaf "no")) in
  root (mkQuestionTree (Some n) {[1; 2; 3; 4]}) = Some n ∧
  setAnswer true (mkQuestionTree (Some n) {[1; 2; 3; 4]})
    = Some (mkQuestionTree (Some (leaf "yes")) ({[1; 2; 3; 4]} ∖ {[3; 4; 5]})) ∧
  setAnswer false (mkQuestionTree (Some n) {[1; 2; 3; 4]})
    = Some (mkQuestionTree (Some (leaf "no")) ({[1; 2; 3; 4]} ∖ {[1; 2]})).
Proof.
  intros n. split; [reflexivity|].
  exact (setAnswer_uses_current_root (mkQuestionTree (Some n) {[1; 2; 3; 4]})
           1 "Is it a princess?" {[1; 2]} {[3; 4; 5]}
           (Some (leaf "yes")) (Some (leaf "no")) eq_refl).
Defined.

(** C5. A session starts with the 32 ids of the universe; a call of
    [setAnswer] on a root that is not null returns, every call that returns
    leaves a subset of the candidates it found, and so does every sequence
    of calls: the number of candidates never grows. *)
Theorem characters_only_shrink :
  (∀ x, x ∈ all_characters ↔ 1 ≤ x ≤ 32) ∧
  (∀ h questions s,
     QuestionTree_new h questions = Some s → characters s = all_characters) ∧
  (∀ a s, root s ≠ None → is_Some (setAnswer a s)) ∧
  (∀ a s s',
     setAnswer a s = Some s' →
     characters s' ⊆ characters s ∧ (size (characters s') ≤ size (characters s))%nat) ∧
  (∀ answers s s',
     setAnswers answers s = Some s' →
     characters s' ⊆ characters s ∧ (size (characters s') ≤ size (characters s))%nat).
Proof.
  split; [|split; [|split; [|split]]].
  - intros x. unfold all_characters. rewrite elem_of_list_to_set, elem_of_seqZ. lia.
  - intros h questions s. unfold QuestionTree_new.
    destruct (buildTree h all_characters questions); simpl; [|done].
    by intros [= <-].
  - intros a s Hroot. unfold setAnswer.
    destruct (root s) as [r|]; [|done]. destruct a; simpl; eauto.
  - intros a s s' Hs. pose proof (setAnswer_characters a s s' Hs) as Hsub.
    split; [done|]. by apply subseteq_size.
  - intros answers s s' Hs. pose proof (setAnswers_characters answers s s' Hs) as Hsub.
    split; [done|]. by apply subseteq_size.
Qed.

Lemma characters_only_shrink_witness :
  ∃ s s',
    QuestionTree_new h0 pool0 = Some s ∧
    setAnswers [false; true] s = Some s' ∧
    characters s = all_characters ∧
    characters s' ⊆ characters s.
Proof.
  destruct (QuestionTree_new h0 pool0) as [s|] eqn:Hs; [|vm_compute in Hs; discriminate].
  destruct (setAnswers [false; true] s) as [s'|] eqn:Hs'.
  - exists s, s'. split; [done|]. split; [done|].
    split.
    + exact (proj1 (proj2 characters_only_shrink) h0 pool0 s Hs).
    + exact (proj1 (proj2 (proj2 (proj2 (proj2 characters_only_shrink)))
                      [false; true] s s' Hs')).
  - exfalso. revert Hs'. vm_compute in Hs. injection Hs as <-. vm_compute. discriminate.
Defined.

(** C6 as stated fails: with no candidate left [getCharacter] looks up the
    id 0, as it would for the single candidate 0, and returns the record
    that the file has for it. *)
Lemma getCharacter_exhausted_counterexample :
  currentResult_spec ∅ = Exhausted ∧
  getCharacter fs0 (mkQuestionTree None ∅)
    = Some (Returned (mkCharacter 0 "Unknown" "unknown.png")) ∧
  getCharacter fs0 (mkQuestionTree None ∅) = getCharacter fs0 (mkQuestionTree None {[0]}) ∧
  ¬ getCharacter_classifies fs0 (mkQuestionTree None ∅).
Proof.
  assert (getCharacter fs0 (mkQuestionTree None ∅)
          = Some (Returned (mkCharacter 0 "Unknown" "unknown.png"))) as Hget
    by (vm_compute; reflexivity).
  split; [vm_compute; reflexivity|]. split; [exact Hget|].
  split; [vm_compute; reflexivity|].
  intros Hc. unfold getCharacter_classifies in Hc.
  change (currentResult_spec (characters (mkQuestionTree None ∅)))
    with Exhausted in Hc.
  exact (Hc _ Hget).
Qed.

(** C6, amended.  [getCharacter] with exactly one candidate left returns what
    the lookup of that id in the character file returns, and with no
    candidate left what the lookup of the id 0 returns: the record of id 0 if
    the file has one, the exception of the lookup if not. *)
Theorem getCharacter_by_size fs s :
  (∀ x, size (characters s) = 1%nat → x ∈ characters s →
        currentResult_spec (characters s) = Identified x ∧
        getCharacter fs s = Some (readCharacterByID fs charactersFilename x)) ∧
  (size (characters s) = 0%nat →
   getCharacter fs s = Some (readCharacterByID fs charactersFilename 0)).
Proof.
  split.
  - intros x Hsz Hx. destruct (size_1_singleton _ Hsz) as [y Hy].
    rewrite Hy in Hx. apply elem_of_singleton in Hx as ->.
    unfold getCharacter, currentResult_spec. rewrite Hsz, Hy, set_begin_singleton.
    split; [done|].
    rewrite decide_False by lia. rewrite decide_False by lia. done.
  - intros Hsz. unfold getCharacter. rewrite Hsz.
    rewrite decide_False by lia. rewrite decide_True by lia. done.
Qed.

Lemma getCharacter_by_size_witness :
  getCharacter fs0 (mkQuestionTree None {[2]})
    = Some (readCharacterByID fs0 charactersFilename 2) ∧
  getCharacter fs0 (mkQuestionTree None ∅)
    = Some (readCharacterByID fs0 charactersFilename 0).
Proof.
  split.
  - apply (proj1 (getCharacter_by_size fs0 (mkQuestionTree None {[2]})) 2);
      vm_compute; reflexivity.
  - apply (proj2 (getCharacter_by_size fs0 (mkQuestionTree None ∅)));
      vm_compute; reflexivity.
Defined.

(** ** [buildTree] and its allocations *)

Lemma buildTree_heap_eq remaining_ids questions σ :
  buildTree_heap remaining_ids questions σ
  = buildTree_heap_body remaining_ids questions σ.
Proof.
  unfold buildTree_heap_body. funelim (buildTree_heap remaining_ids questions σ).
  all: try match goal with H : bool_decide (size _ = _) = _ |- _ => rewrite H end.
  all: try match goal with H : bool_decide (_ = []) = _ |- _ => rewrite H end.
  all: try match goal with H : select_best _ _ _ = _ |- _ => rewrite H end.
  all: try match goal with H : _ !! _ = _ |- _ => rewrite H end.
  all: done.
Qed.

(** The loop reads the store at the pointers of the pool only. *)
Lemma scan_ext σ1 σ2 remaining_ids questions b m :
  (∀ q, q ∈ questions → σ2 !! q = σ1 !! q) →
  scan σ2 remaining_ids questions b m = scan σ1 remaining_ids questions b m.
Proof.
  revert b m. induction questions as [|q rest IH]; intros b m Hag; [done|].
  simpl. rewrite (Hag q) by apply list_elem_of_here.
  destruct (σ1 !! q) as [o|]; [|done].
  case_decide; apply IH; intros q' Hq'; apply Hag; by apply list_elem_of_further.
Qed.

Lemma pool_agree_remove (σ1 σ2 : gmap loc Question) best questions :
  (∀ q, q ∈ questions → σ2 !! q = σ1 !! q) →
  ∀ q, q ∈ remove_question best questions → σ2 !! q = σ1 !! q.
Proof.
  intros Hag q Hq. apply Hag. unfold remove_question in Hq.
  by apply list_elem_of_filter in Hq as [_ ?].
Qed.

Lemma buildTree_ext σ1 σ2 remaining_ids questions :
  (∀ q, q ∈ questions → σ2 !! q = σ1 !! q) →
  buildTree σ2 remaining_ids questions = buildTree σ1 remaining_ids questions.
Proof.
  revert remaining_ids.
  remember (length questions) as n eqn:Hn. revert questions Hn.
  induction (lt_wf n) as [n _ IH]. intros questions -> r Hag.
  rewrite !buildTree_eq. unfold buildTree_body.
  case_bool_decide; [done|]. case_bool_decide; [done|].
  unfold select_best. rewrite (scan_ext σ1 σ2) by done.
  destruct (scan σ1 r questions None INT_MAX) as [[bq|]|] eqn:Hsel; [|done..].
  pose proof (select_best_in _ _ _ _ Hsel) as Hin.
  rewrite (Hag bq Hin). destruct (σ1 !! bq) as [best|]; [|done]. cbv zeta.
  pose proof (remove_question_length _ _ Hin) as Hlen.
  pose proof (pool_agree_remove σ1 σ2 bq questions Hag) as Hag'.
  rewrite (IH _ Hlen _ eq_refl (r ∩ positive_ids best) Hag').
  rewrite (IH _ Hlen _ eq_refl (r ∩ negative_ids best) Hag').
  done.
Qed.

(** The tree that a pointer denotes is unique. *)
Lemma reads_functional σ p t1 t2 : reads σ p t1 → reads σ p t2 → t1 = t2.
Proof.
  intros H1. revert t2. induction H1 as [|p o tl tr Ho _ IHl _ IHr]; intros t2 H2.
  - by inversion H2.
  - inversion H2 as [|p' o' tl' tr' Ho' Hl' Hr']; subst.
    rewrite Ho in Ho'. injection Ho' as <-.
    by rewrite (IHl _ Hl'), (IHr _ Hr').
Qed.

(** A fresh object without children denotes a leaf in every store that
    keeps it. *)
Lemma new_leaf_reads σ msg :
  let '(p, σ') := new_Question (Question_new (-1) msg ∅ ∅) σ in
  σ ⊆ σ' ∧ σ !! p = None ∧
  ∀ σ'', (∀ a o, σ !! a = None → σ' !! a = Some o → σ'' !! a = Some o) →
         reads σ'' (Some p) (Some (leaf msg)).
Proof.
  unfold new_Question. set (p := fresh (dom σ)).
  assert (σ !! p = None) as Hp by apply not_elem_of_dom, is_fresh.
  split; [by apply insert_subseteq|]. split; [done|].
  intros σ'' Hframe.
  apply (reads_node σ'' p (Question_new (-1) msg ∅ ∅) None None);
    [|constructor..].
  apply Hframe; [done|]. apply lookup_insert_eq.
Qed.

(** [buildTree_heap] allocates the tree that [buildTree] returns: it leaves
    the objects of the store as they were, returns an address that was
    free, and the tree is read from the addresses that were free before the
    call. *)
Lemma buildTree_heap_refines h remaining_ids questions t :
  buildTree h remaining_ids questions = Some t →
  pool_valid h questions →
  ∀ σ, (∀ q, q ∈ questions → σ !! q = h !! q) →
  ∃ p σ',
    buildTree_heap remaining_ids questions σ = Some (p, σ') ∧
    σ ⊆ σ' ∧ σ !! p = None ∧
    ∀ σ'', (∀ a o, σ !! a = None → σ' !! a = Some o → σ'' !! a = Some o) →
           reads σ'' (Some p) (Some t).
Proof.
  revert remaining_ids questions t.
  apply (buildTree_cases
    (λ r qs t,
       pool_valid h qs →
       ∀ σ, (∀ q, q ∈ qs → σ !! q = h !! q) →
       ∃ p σ',
         buildTree_heap r qs σ = Some (p, σ') ∧
         σ ⊆ σ' ∧ σ !! p = None ∧
         ∀ σ'', (∀ a o, σ !! a = None → σ' !! a = Some o → σ'' !! a = Some o) →
                reads σ'' (Some p) (Some t))).
  - intros r qs x Hsz Hx _ σ _.
    rewrite buildTree_heap_eq. unfold buildTree_heap_body.
    rewrite bool_decide_eq_true_2 by done. rewrite Hx. simpl.
    pose proof (new_leaf_reads σ (MSG_IDENTIFIED +:+ to_string x)) as Hnew.
    destruct (new_Question _ σ) as [p σ']. by exists p, σ'.
  - intros r Hsz _ σ _.
    rewrite buildTree_heap_eq. unfold buildTree_heap_body.
    rewrite bool_decide_eq_false_2 by done. rewrite bool_decide_eq_true_2 by done.
    pose proof (new_leaf_reads σ MSG_NO_QUESTIONS) as Hnew.
    destruct (new_Question _ σ) as [p σ']. by exists p, σ'.
  - intros r qs Hsz Hqs Hsel _ σ Hag.
    rewrite buildTree_heap_eq. unfold buildTree_heap_body.
    rewrite bool_decide_eq_false_2 by done. rewrite bool_decide_eq_false_2 by done.
    unfold select_best in *. rewrite (scan_ext h σ) by done. rewrite Hsel.
    pose proof (new_leaf_reads σ MSG_UNABLE) as Hnew.
    destruct (new_Question _ σ) as [p σ']. by exists p, σ'.
  - intros r qs bq best tl tr Hsz Hqs Hsel Hbest _ IHl _ IHr Hv σ Hag.
    rewrite buildTree_heap_eq. unfold buildTree_heap_body.
    rewrite bool_decide_eq_false_2 by done. rewrite bool_decide_eq_false_2 by done.
    pose proof (select_best_in _ _ _ _ Hsel) as Hin.
    unfold select_best in *. rewrite (scan_ext h σ) by done. rewrite Hsel.
    rewrite (Hag bq Hin), Hbest. cbv zeta. unfold new_Question. simpl.
    set (node := fresh (dom σ)).
    set (n0 := Question_new (q_id best) (text best) (positive_ids best) (negative_ids best)).
    assert (σ !! node = None) as Hnode by apply not_elem_of_dom, is_fresh.
    pose proof (pool_valid_remove h bq qs Hv) as Hv'.
    assert (∀ q, q ∈ remove_question bq qs → q ≠ node) as Hpool_ne.
    { intros q Hq ->. destruct (Hv' _ Hq) as [o Ho].
      rewrite <- (pool_agree_remove h σ bq qs Hag _ Hq) in Ho. congruence. }
    (* the left subtree *)
    destruct (IHl Hv' (<[node := n0]> σ)) as (l & σ2 & Hcall_l & Hsub1 & Hl_free & Hl_reads).
    { intros q Hq. rewrite lookup_insert_ne by (intros Heq; by eapply Hpool_ne).
      by eapply pool_agree_remove. }
    rewrite Hcall_l. simpl. unfold store_left.
    assert (σ2 !! node = Some n0) as Hn2.
    { eapply lookup_weaken; [|exact Hsub1]. apply lookup_insert_eq. }
    rewrite Hn2. simpl.
    set (n1 := mkQuestion (q_id best) (text best) (positive_ids best)
                          (negative_ids best) (Some l) None).
    assert (∀ a o, σ !! a = Some o → σ2 !! a = Some o) as Hkeep2.
    { intros a o Ha. eapply lookup_weaken; [|exact Hsub1].
      rewrite lookup_insert_ne by congruence. done. }
    (* the right subtree *)
    destruct (IHr Hv' (<[node := n1]> σ2)) as (rp & σ4 & Hcall_r & Hsub3 & Hr_free & Hr_reads).
    { intros q Hq. rewrite lookup_insert_ne by (intros Heq; by eapply Hpool_ne).
      destruct (Hv' _ Hq) as [o Ho].
      pose proof (pool_agree_remove h σ bq qs Hag _ Hq) as Hσq.
      rewrite Ho. apply Hkeep2. by rewrite Hσq. }
    rewrite Hcall_r. simpl. unfold store_right.
    assert (σ4 !! node = Some n1) as Hn4.
    { eapply lookup_weaken; [|exact Hsub3]. apply lookup_insert_eq. }
    rewrite Hn4. simpl.
    set (n2 := mkQuestion (q_id best) (text best) (positive_ids best)
                          (negative_ids best) (Some l) (Some rp)).
    assert (∀ a o, a ≠ node → σ2 !! a = Some o → <[node := n2]> σ4 !! a = Some o) as Hkeep5.
    { intros a o Hne Ha. rewrite lookup_insert_ne by done.
      eapply lookup_weaken; [|exact Hsub3]. by rewrite lookup_insert_ne. }
    exists node, (<[node := n2]> σ4).
    split; [done|]. split; [|split; [done|]].
    + apply map_subseteq_spec. intros a o Ha.
      apply Hkeep5; [congruence|]. by apply Hkeep2.
    + intros σ'' Hframe.
      apply (reads_node σ'' node n2 (Some tl) (Some tr)).
      * apply Hframe; [done|]. apply lookup_insert_eq.
      * simpl. apply Hl_reads. intros a o Ha1 Ha2.
        assert (a ≠ node) as Hne by (intros ->; rewrite lookup_insert_eq in Ha1; done).
        rewrite lookup_insert_ne in Ha1 by done.
        apply Hframe; [done|]. by apply Hkeep5.
      * simpl. apply Hr_reads. intros a o Ha3 Ha4.
        assert (a ≠ node) as Hne by (intros ->; rewrite lookup_insert_eq in Ha3; done).
        rewrite lookup_insert_ne in Ha3 by done.
        apply Hframe.
        -- destruct (σ !! a) as [o'|] eqn:Ha; [|done].
           apply Hkeep2 in Ha. congruence.
        -- by rewrite lookup_insert_ne.
Qed.

(** C8. The tree depends on the remaining ids and on the objects of the pool
    in their order, and on nothing else: in two stores that hold the same
    objects at the pointers of the pool, whatever else they hold, the two
    calls return, at addresses of their own, one and the same tree (ids,
    texts, sets and shape); so does a second call made in the store that
    the first call left, where both trees are then read side by side. *)
Theorem buildTree_deterministic remaining_ids questions σ1 σ2 :
  pool_valid σ1 questions →
  (∀ q, q ∈ questions → σ2 !! q = σ1 !! q) →
  ∃ t p1 σ1' p2 σ2' p3 σ3,
    buildTree σ1 remaining_ids questions = Some t ∧
    buildTree σ2 remaining_ids questions = Some t ∧
    buildTree_heap remaining_ids questions σ1 = Some (p1, σ1') ∧
    buildTree_heap remaining_ids questions σ2 = Some (p2, σ2') ∧
    reads σ1' (Some p1) (Some t) ∧
    reads σ2' (Some p2) (Some t) ∧
    buildTree_heap remaining_ids questions σ1' = Some (p3, σ3) ∧
    p3 ≠ p1 ∧
    reads σ3 (Some p1) (Some t) ∧
    reads σ3 (Some p3) (Some t).
Proof.
  intros Hv Hag.
  destruct (buildTree_total σ1 remaining_ids questions Hv) as [t Ht].
  destruct (buildTree_heap_refines σ1 remaining_ids questions t Ht Hv σ1)
    as (p1 & σ1' & Hc1 & Hsub1 & Hfree1 & Hreads1); [done|].
  destruct (buildTree_heap_refines σ1 remaining_ids questions t Ht Hv σ2 Hag)
    as (p2 & σ2' & Hc2 & _ & _ & Hreads2).
  assert (∀ q, q ∈ questions → σ1' !! q = σ1 !! q) as Hag1.
  { intros q Hq. destruct (Hv q Hq) as [o Ho]. rewrite Ho.
    by eapply lookup_weaken. }
  destruct (buildTree_heap_refines σ1 remaining_ids questions t Ht Hv σ1' Hag1)
    as (p3 & σ3 & Hc3 & Hsub3 & Hfree3 & Hreads3).
  assert (reads σ1' (Some p1) (Some t)) as Hr1 by (apply Hreads1; auto).
  exists t, p1, σ1', p2, σ2', p3, σ3.
  split; [done|]. split; [by rewrite (buildTree_ext σ1 σ2)|].
  split; [done|]. split; [done|]. split; [done|].
  split; [apply Hreads2; auto|]. split; [done|]. split.
  - intros ->. inversion Hr1; subst. congruence.
  - split; [|apply Hreads3; auto].
    apply Hreads1. intros a o _ Ha. by eapply lookup_weaken.
Qed.

Lemma buildTree_deterministic_witness :
  pool_valid h0 pool0 ∧
  (∀ q, q ∈ pool0 → (<[7%positive := q2]> h0) !! q = h0 !! q) ∧
  ∃ t p1 σ1' p2 σ2',
    buildTree_heap {[1; 2; 3; 4]} pool0 h0 = Some (p1, σ1') ∧
    buildTree_heap {[1; 2; 3; 4]} pool0 (<[7%positive := q2]> h0) = Some (p2, σ2') ∧
    reads σ1' (Some p1) (Some t) ∧
    reads σ2' (Some p2) (Some t).
Proof.
  assert (pool_valid h0 pool0) as Hv by (apply (bool_decide_unpack _); vm_compute; exact I).
  assert (∀ q, q ∈ pool0 → (<[7%positive := q2]> h0) !! q = h0 !! q) as Hag.
  { intros q Hq. apply lookup_insert_ne. intros <-.
    revert Hq. apply (bool_decide_unpack _). vm_compute. exact I. }
  split; [done|]. split; [done|].
  destruct (buildTree_deterministic {[1; 2; 3; 4]} pool0 h0 (<[7%positive := q2]> h0) Hv Hag)
    as (t & p1 & σ1' & p2 & σ2' & p3 & σ3 & _ & _ & Hc1 & Hc2 & Hr1 & Hr2 & _).
  by exists t, p1, σ1', p2, σ2'.
Defined.

(** * Further properties *)

(** ** The tree and the walk of a session *)

(** What [buildTree] returns: one of the three leaves, or the node of a
    question of the pool over the two trees of the recursive calls. *)
Lemma buildTree_inv h remaining_ids questions t :
  buildTree h remaining_ids questions = Some t →
  (∃ msg, t = leaf msg ∧
          (msg = MSG_NO_QUESTIONS ∨ msg = MSG_UNABLE ∨
           ∃ x, remaining_ids = {[x]} ∧ msg = MSG_IDENTIFIED +:+ to_string x)) ∨
  (∃ best_question best l rt,
     best_question ∈ questions ∧ h !! best_question = Some best ∧
     buildTree h (remaining_ids ∩ positive_ids best)
               (remove_question best_question questions) = Some l ∧
     buildTree h (remaining_ids ∩ negative_ids best)
               (remove_question best_question questions) = Some rt ∧
     t = Node (q_id best) (text best) (positive_ids best) (negative_ids best)
              (Some l) (Some rt)).
Proof.
  revert remaining_ids questions t.
  apply (buildTree_cases (λ r qs t,
    (∃ msg, t = leaf msg ∧
            (msg = MSG_NO_QUESTIONS ∨ msg = MSG_UNABLE ∨
             ∃ x, r = {[x]} ∧ msg = MSG_IDENTIFIED +:+ to_string x)) ∨
    (∃ bq best l rt,
       bq ∈ qs ∧ h !! bq = Some best ∧
       buildTree h (r ∩ positive_ids best) (remove_question bq qs) = Some l ∧
       buildTree h (r ∩ negative_ids best) (remove_question bq qs) = Some rt ∧
       t = Node (q_id best) (text best) (positive_ids best) (negative_ids best)
                (Some l) (Some rt)))).
  - intros r qs x Hsz Hx. left. eexists. split; [done|]. right. right.
    destruct (size_1_singleton _ Hsz) as [y ->].
    rewrite set_begin_singleton in Hx. injection Hx as ->. by exists x.
  - intros r _. left. eexists. split; [done|]. by left.
  - intros r qs _ _ _. left. eexists. split; [done|]. right. by left.
  - intros r qs bq best l rt _ _ Hsel Hbest Hl _ Hr _. right.
    exists bq, best, l, rt. split; [by eapply select_best_in|]. done.
Qed.

(** The node that a walk reaches is itself a result of [buildTree]: for the
    remaining ids that lie on the answered sides, over a pool that lost at
    least one pointer at every answer. *)
Lemma walk_subtree h answers :
  ∀ remaining_ids questions t c s' t',
    buildTree h remaining_ids questions = Some t →
    setAnswers answers (mkQuestionTree (Some t) c) = Some s' →
    root s' = Some t' →
    ∃ r' qs',
      buildTree h r' qs' = Some t' ∧
      (∀ x, x ∈ r' ↔ x ∈ remaining_ids ∧ on_path t answers x) ∧
      qs' `sublist_of` questions ∧
      (length qs' + length answers ≤ length questions)%nat.
Proof.
  induction answers as [|a rest IH]; intros r qs t c s' t' Ht Hs Hroot.
  - simpl in Hs. injection Hs as <-. simpl in Hroot. injection Hroot as <-.
    exists r, qs. split; [done|]. split.
    { intros x. simpl. split; [intros Hx; split; [exact Hx | exact I] | intros [Hx _]; exact Hx]. }
    split; [done|]. simpl. lia.
  - simpl in Hs.
    destruct (buildTree_inv h r qs t Ht)
      as [(msg & -> & _)|(bq & best & l & rt & Hin & Hbest & Hl & Hr & ->)].
    + destruct a; simpl in Hs; destruct rest; simpl in Hs;
        try discriminate; injection Hs as <-; discriminate.
    + pose proof (remove_question_length bq qs Hin) as Hlen.
      assert (remove_question bq qs `sublist_of` qs) as Hsub by apply sublist_filter.
      destruct a; simpl in Hs.
      * destruct (IH _ _ _ _ _ _ Hl Hs Hroot) as (r' & qs' & Ht' & Hr' & Hsub' & Hlen').
        exists r', qs'. split; [done|]. split; [|split; [by etrans|simpl; lia]].
        intros x. rewrite Hr', elem_of_intersection. simpl. tauto.
      * destruct (IH _ _ _ _ _ _ Hr Hs Hroot) as (r' & qs' & Ht' & Hr' & Hsub' & Hlen').
        exists r', qs'. split; [done|]. split; [|split; [by etrans|simpl; lia]].
        intros x. rewrite Hr', elem_of_intersection. simpl. tauto.
Qed.

(** [to_string] tells integers apart. *)
Lemma to_string_inj x y : to_string x = to_string y → x = y.
Proof.
  unfold to_string. intros Heq. apply DecimalZ.to_int_inj.
  assert (∀ z, Z.to_int z ≠ Decimal.Pos Decimal.Nil ∧ Z.to_int z ≠ Decimal.Neg Decimal.Nil)
    as Hnn.
  { intros [|p|p]; simpl; split; try discriminate;
      intros [= H]; by apply DecimalPos.Unsigned.to_uint_nonnil in H. }
  destruct (Hnn x) as [Hx1 Hx2], (Hnn y) as [Hy1 Hy2].
  pose proof (NilZero.isi _ Hx1 Hx2) as Hx. pose proof (NilZero.isi _ Hy1 Hy2) as Hy.
  rewrite Heq in Hx. congruence.
Qed.

(** The leaf of one remaining id is reached only by ids on the answered
    sides. *)
Lemma identified_leaf_on_path h remaining_ids questions t answers c s' x :
  buildTree h remaining_ids questions = Some t →
  setAnswers answers (mkQuestionTree (Some t) c) = Some s' →
  root s' = Some (leaf (MSG_IDENTIFIED +:+ to_string x)) →
  ∀ y, y ∈ remaining_ids ∧ on_path t answers y ↔ y = x.
Proof.
  intros Ht Hs Hroot.
  destruct (walk_subtree h answers _ _ _ _ _ _ Ht Hs Hroot)
    as (r' & qs' & Ht' & Hr' & _ & _).
  destruct (buildTree_inv h r' qs' _ Ht')
    as [(msg & Hmsg & [->|[->|(x' & -> & ->)]])|(bq & best & l & rt & _ & _ & _ & _ & Hn)];
    try discriminate.
  injection Hmsg as Hx%to_string_inj. subst x'.
  intros y. rewrite <- Hr'. apply elem_of_singleton.
Qed.

Lemma setAnswers_snoc answers a s :
  setAnswers (answers ++ [a]) s = setAnswers answers s ≫= setAnswer a.
Proof.
  revert s. induction answers as [|b rest IH]; intros s; simpl.
  - by destruct (setAnswer a s).
  - destruct (setAnswer b s) as [s1|]; simpl; [apply IH|done].
Qed.

(** X1. When the answers lead from the root of a built tree to the leaf
    "Character identified: x", [x] is one of the ids the tree was built for,
    it is on the answered side of every question asked on the way, and it
    is the only such id. *)
Theorem identified_leaf_sound h remaining_ids questions t answers c s' x :
  buildTree h remaining_ids questions = Some t →
  setAnswers answers (mkQuestionTree (Some t) c) = Some s' →
  root s' = Some (leaf (MSG_IDENTIFIED +:+ to_string x)) →
  x ∈ remaining_ids ∧ on_path t answers x ∧
  ∀ y, y ∈ remaining_ids → on_path t answers y → y = x.
Proof.
  intros Ht Hs Hroot.
  pose proof (identified_leaf_on_path _ _ _ _ _ _ _ _ Ht Hs Hroot) as Hiff.
  destruct (proj2 (Hiff x) eq_refl) as [Hin Hpath].
  split; [done|]. split; [done|]. intros y Hy Hp. by apply Hiff.
Qed.

Lemma identified_leaf_sound_witness :
  buildTree he {[1; 2; 3]} pool0 = Some te ∧
  setAnswers [false; true] (mkQuestionTree (Some te) {[1; 2; 3]})
    = Some (mkQuestionTree (Some (leaf "Character identified: 2")) {[2]}) ∧
  2 ∈ ({[1; 2; 3]} : gset Z) ∧ on_path te [false; true] 2.
Proof.
  assert (buildTree he {[1; 2; 3]} pool0 = Some te) as Ht by (vm_compute; reflexivity).
  assert (setAnswers [false; true] (mkQuestionTree (Some te) {[1; 2; 3]})
          = Some (mkQuestionTree (Some (leaf "Character identified: 2")) {[2]})) as Hs
    by (vm_compute; reflexivity).
  split; [exact Ht|]. split; [exact Hs|].
  destruct (identified_leaf_sound he {[1; 2; 3]} pool0 te [false; true] _ _ 2 Ht Hs eq_refl)
    as (Hin & Hpath & _).
  by split.
Defined.

(** X2. A session on a built tree takes at most as many answers as the pool
    has pointers before its root is a leaf, and one more before the root is
    null: a longer sequence of calls of [setAnswer] dereferences the null
    root. *)
Theorem session_length_bound h remaining_ids questions t answers c :
  buildTree h remaining_ids questions = Some t →
  (∀ s', setAnswers answers (mkQuestionTree (Some t) c) = Some s' →
         (root s' ≠ None → length answers ≤ length questions)%nat ∧
         (length answers ≤ S (length questions))%nat) ∧
  (S (length questions) < length answers →
   setAnswers answers (mkQuestionTree (Some t) c) = None)%nat.
Proof.
  intros Ht.
  assert (∀ ans s', setAnswers ans (mkQuestionTree (Some t) c) = Some s' →
                    root s' ≠ None → (length ans ≤ length questions)%nat) as Hlive.
  { intros ans s' Hs Hroot. destruct (root s') as [t'|] eqn:Ht'; [|done].
    destruct (walk_subtree h ans _ _ _ _ _ _ Ht Hs Ht') as (r' & qs' & _ & _ & _ & Hlen).
    lia. }
  assert (∀ ans s', setAnswers ans (mkQuestionTree (Some t) c) = Some s' →
                    (length ans ≤ S (length questions))%nat) as Hall.
  { intros ans s' Hs. destruct ans as [|a0 ans0] using rev_ind; [simpl; lia|].
    clear IHans0. rewrite setAnswers_snoc in Hs.
    destruct (setAnswers ans0 _) as [s1|] eqn:Hs1; simpl in Hs; [|done].
    assert (root s1 ≠ None) as Hr1.
    { intros Hnone. unfold setAnswer in Hs. by rewrite Hnone in Hs. }
    pose proof (Hlive _ _ Hs1 Hr1). rewrite length_app. simpl. lia. }
  split.
  - intros s' Hs. split; [by eapply Hlive | by eapply Hall].
  - intros Hlong. destruct (setAnswers answers _) as [s'|] eqn:Hs; [|done].
    pose proof (Hall _ _ Hs). lia.
Qed.

Lemma session_length_bound_witness :
  buildTree he {[1; 2; 3]} pool0 = Some te ∧
  setAnswers [false; true; true; true] (mkQuestionTree (Some te) {[1; 2; 3]}) = None.
Proof.
  assert (buildTree he {[1; 2; 3]} pool0 = Some te) as Ht by (vm_compute; reflexivity).
  split; [exact Ht|].
  apply (proj2 (session_length_bound he {[1; 2; 3]} pool0 te
                  [false; true; true; true] {[1; 2; 3]} Ht)).
  simpl. lia.
Defined.

(** X3. At a leaf of a built tree [setAnswer] keeps the candidates as they
    are, whatever the answer, and leaves the root null; after that
    [getQuestionText] and a further [setAnswer] dereference the null root. *)
Theorem setAnswer_at_leaf h remaining_ids questions t c a :
  buildTree h remaining_ids questions = Some t →
  node_left t = None →
  setAnswer a (mkQuestionTree (Some t) c) = Some (mkQuestionTree None c) ∧
  getQuestionText (mkQuestionTree None c) = None ∧
  ∀ a', setAnswer a' (mkQuestionTree None c) = None.
Proof.
  intros Ht Hleft.
  destruct (buildTree_inv h _ _ _ Ht)
    as [(msg & -> & _)|(bq & best & l & rt & _ & _ & _ & _ & ->)]; [|discriminate].
  split; [|split; [done|by intros []]].
  unfold setAnswer. simpl. destruct a; by rewrite difference_empty_L.
Qed.

Lemma setAnswer_at_leaf_witness :
  buildTree h0 {[7]} pool0 = Some (leaf "Character identified: 7") ∧
  setAnswer true (mkQuestionTree (Some (leaf "Character identified: 7")) {[7; 8]})
    = Some (mkQuestionTree None {[7; 8]}).
Proof.
  assert (buildTree h0 {[7]} pool0 = Some (leaf "Character identified: 7")) as Ht
    by (vm_compute; reflexivity).
  split; [exact Ht|].
  exact (proj1 (setAnswer_at_leaf h0 {[7]} pool0 _ {[7; 8]} true Ht eq_refl)).
Defined.

(** The candidates after a sequence of answers are the candidates that no
    answer ruled out. *)
Lemma setAnswers_survivors answers :
  ∀ s s', setAnswers answers s = Some s' →
          ∀ x, x ∈ characters s' ↔ x ∈ characters s ∧ survives (root s) answers x.
Proof.
  induction answers as [|a rest IH]; intros s s' Hs x; simpl in Hs.
  - injection Hs as <-. simpl. tauto.
  - destruct (setAnswer a s) as [s1|] eqn:H1; simpl in Hs; [|done].
    rewrite (IH _ _ Hs x). unfold setAnswer in H1.
    destruct (root s) as [t|] eqn:Hroot; simpl in H1; [|done]. simpl.
    destruct a; injection H1 as <-; simpl; rewrite elem_of_difference; tauto.
Qed.

Lemma getCharacter_one fs s x :
  size (characters s) = 1%nat → x ∈ characters s →
  getCharacter fs s = Some (readCharacterByID fs charactersFilename x).
Proof.
  intros Hsz Hx. destruct (size_1_singleton _ Hsz) as [y Hy].
  rewrite Hy in Hx. apply elem_of_singleton in Hx as ->.
  unfold getCharacter. rewrite Hsz, Hy, set_begin_singleton.
  rewrite decide_False by lia. rewrite decide_False by lia. done.
Qed.

(** X4. An id that was a candidate and that no answer contradicts is still
    a candidate after any sequence of answers; so the session is never left
    without candidates, and when one candidate is left [getCharacter] looks
    that id up and no other. *)
Theorem uncontradicted_candidate_kept fs answers s s' x :
  setAnswers answers s = Some s' →
  x ∈ characters s →
  survives (root s) answers x →
  x ∈ characters s' ∧
  size (characters s') ≠ 0%nat ∧
  (size (characters s') = 1%nat →
   getCharacter fs s' = Some (readCharacterByID fs charactersFilename x)).
Proof.
  intros Hs Hx Hsurv.
  assert (x ∈ characters s') as Hx' by (by apply (setAnswers_survivors _ _ _ Hs)).
  split; [done|]. split.
  - intros Hz. apply size_empty_inv in Hz. apply leibniz_equiv in Hz.
    rewrite Hz in Hx'. by apply not_elem_of_empty in Hx'.
  - intros Hone. by apply getCharacter_one.
Qed.

Lemma uncontradicted_candidate_kept_witness :
  setAnswers [false; true] (mkQuestionTree (Some te) {[1; 2; 3]})
    = Some (mkQuestionTree (Some (leaf "Character identified: 2")) {[2]}) ∧
  2 ∈ ({[1; 2; 3]} : gset Z) ∧
  survives (Some te) [false; true] 2 ∧
  getCharacter fs0 (mkQuestionTree (Some (leaf "Character identified: 2")) {[2]})
    = Some (readCharacterByID fs0 charactersFilename 2).
Proof.
  assert (setAnswers [false; true] (mkQuestionTree (Some te) {[1; 2; 3]})
          = Some (mkQuestionTree (Some (leaf "Character identified: 2")) {[2]})) as Hs
    by (vm_compute; reflexivity).
  assert (2 ∈ ({[1; 2; 3]} : gset Z)) as Hin by (vm_compute; reflexivity).
  assert (survives (Some te) [false; true] 2) as Hsurv.
  { simpl. split; [|split; [|exact I]]; apply (bool_decide_unpack _); vm_compute; exact I. }
  split; [exact Hs|]. split; [exact Hin|]. split; [exact Hsurv|].
  apply (uncontradicted_candidate_kept fs0 _ _ _ 2 Hs Hin Hsurv).
  vm_compute. reflexivity.
Defined.

(** X5. When the two sets of every question of the pool split the remaining
    ids, the session stays in step with the tree: after any answers that
    end on a node, that node is the tree [buildTree] returns for the
    candidates the session then holds, so on the leaf "Character
    identified: x" the only candidate is [x]. *)
Theorem session_in_step h answers :
  ∀ remaining_ids questions t s' t',
    buildTree h remaining_ids questions = Some t →
    (∀ q o, q ∈ questions → h !! q = Some o → splits remaining_ids o) →
    setAnswers answers (mkQuestionTree (Some t) remaining_ids) = Some s' →
    root s' = Some t' →
    (∃ qs', qs' `sublist_of` questions ∧ buildTree h (characters s') qs' = Some t') ∧
    (∀ x, t' = leaf (MSG_IDENTIFIED +:+ to_string x) → characters s' = {[x]}).
Proof.
  assert (∀ ans r qs t s' t',
    buildTree h r qs = Some t →
    (∀ q o, q ∈ qs → h !! q = Some o → splits r o) →
    setAnswers ans (mkQuestionTree (Some t) r) = Some s' →
    root s' = Some t' →
    ∃ qs', qs' `sublist_of` qs ∧ buildTree h (characters s') qs' = Some t') as Hstep.
  { induction ans as [|a rest IH]; intros r qs t s' t' Ht Hsplit Hs Hroot.
    - simpl in Hs. injection Hs as <-. simpl in Hroot. injection Hroot as <-.
      by exists qs.
    - simpl in Hs.
      destruct (buildTree_inv h r qs t Ht)
        as [(msg & -> & _)|(bq & best & l & rt & Hin & Hbest & Hl & Hr & ->)].
      { destruct a; simpl in Hs; destruct rest; simpl in Hs;
          try discriminate; injection Hs as <-; discriminate. }
      assert (remove_question bq qs `sublist_of` qs) as Hsub by apply sublist_filter.
      pose proof (Hsplit bq best Hin Hbest) as Hb.
      assert (r ∖ negative_ids best = r ∩ positive_ids best) as Hyes.
      { apply set_eq. intros x. rewrite elem_of_difference, elem_of_intersection.
        split; intros [Hx Hside]; (split; [done|]); by apply (Hb x Hx). }
      assert (r ∖ positive_ids best = r ∩ negative_ids best) as Hno.
      { apply set_eq. intros x. rewrite elem_of_difference, elem_of_intersection.
        split; intros [Hx Hside]; (split; [done|]).
        - destruct (decide (x ∈ negative_ids best)) as [|Hn]; [done|].
          by apply (Hb x Hx) in Hn.
        - intros Hp. by apply (Hb x Hx) in Hp. }
      assert (∀ X q o, q ∈ remove_question bq qs → h !! q = Some o → splits (r ∩ X) o)
        as Hsplit'.
      { intros X q o Hq Ho x [Hx _]%elem_of_intersection.
        apply (Hsplit q o); [|done..]. unfold remove_question in Hq.
        by apply list_elem_of_filter in Hq as [_ ?]. }
      destruct a; simpl in Hs.
      + rewrite Hyes in Hs.
        destruct (IH _ _ _ _ _ Hl (Hsplit' _) Hs Hroot) as (qs' & Hsub' & Ht').
        exists qs'. split; [by etrans|done].
      + rewrite Hno in Hs.
        destruct (IH _ _ _ _ _ Hr (Hsplit' _) Hs Hroot) as (qs' & Hsub' & Ht').
        exists qs'. split; [by etrans|done]. }
  intros r qs t s' t' Ht Hsplit Hs Hroot.
  destruct (Hstep _ _ _ _ _ _ Ht Hsplit Hs Hroot) as (qs' & Hsub & Ht').
  split; [by exists qs'|].
  intros x ->.
  destruct (buildTree_inv h _ _ _ Ht')
    as [(msg & Hmsg & [->|[->|(x' & Hx' & ->)]])|(bq & best & l & rt & _ & _ & _ & _ & Hn)];
    try discriminate.
  injection Hmsg as Hx%to_string_inj. by subst x'.
Qed.

Lemma session_in_step_witness :
  buildTree he {[1; 2; 3]} pool0 = Some te ∧
  (∀ q o, q ∈ pool0 → he !! q = Some o → splits {[1; 2; 3]} o) ∧
  setAnswers [false; false] (mkQuestionTree (Some te) {[1; 2; 3]})
    = Some (mkQuestionTree (Some (leaf "Character identified: 3")) {[3]}) ∧
  characters (mkQuestionTree (Some (leaf "Character identified: 3")) {[3]}) = {[3]}.
Proof.
  assert (buildTree he {[1; 2; 3]} pool0 = Some te) as Ht by (vm_compute; reflexivity).
  assert (∀ q o, q ∈ pool0 → he !! q = Some o → splits {[1; 2; 3]} o) as Hsplit.
  { intros q o Hq Ho x Hx.
    assert (q = 1%positive ∨ q = 2%positive) as [-> | ->].
    { revert Hq. unfold pool0. rewrite !elem_of_cons, elem_of_nil. tauto. }
    - assert (o = e1) as -> by (vm_compute in Ho; by injection Ho).
      revert x Hx. apply (bool_decide_unpack _). vm_compute. exact I.
    - assert (o = e2) as -> by (vm_compute in Ho; by injection Ho).
      revert x Hx. apply (bool_decide_unpack _). vm_compute. exact I. }
  assert (setAnswers [false; false] (mkQuestionTree (Some te) {[1; 2; 3]})
          = Some (mkQuestionTree (Some (leaf "Character identified: 3")) {[3]})) as Hs
    by (vm_compute; reflexivity).
  split; [exact Ht|]. split; [exact Hsplit|]. split; [exact Hs|].
  exact (proj2 (session_in_step he [false; false] _ _ _ _ _ Ht Hsplit Hs eq_refl)
               3 eq_refl).
Defined.

(** X6. An id that the question at the root has on neither side stays a
    candidate after the answer, yes or no, but no leaf below that question
    names it: no sequence of answers leads to "Character identified: x". *)
Theorem uncovered_id_never_named h remaining_ids questions t x a rest c s' :
  buildTree h remaining_ids questions = Some t →
  x ∉ node_positive t →
  x ∉ node_negative t →
  x ∈ c →
  setAnswers (a :: rest) (mkQuestionTree (Some t) c) = Some s' →
  (∃ s1, setAnswer a (mkQuestionTree (Some t) c) = Some s1 ∧ x ∈ characters s1) ∧
  root s' ≠ Some (leaf (MSG_IDENTIFIED +:+ to_string x)).
Proof.
  intros Ht Hpos Hneg Hc Hs. split.
  - unfold setAnswer. simpl. destruct a; eexists; (split; [done|]); simpl;
      by apply elem_of_difference.
  - intros Hroot.
    pose proof (identified_leaf_on_path _ _ _ _ _ _ _ _ Ht Hs Hroot) as Hiff.
    destruct (proj2 (Hiff x) eq_refl) as [_ [Hside _]].
    by destruct a.
Qed.

Lemma uncovered_id_never_named_witness :
  buildTree hu {[1; 2; 3]} [1%positive] = Some tu ∧
  (3 ∉ node_positive tu) ∧ (3 ∉ node_negative tu) ∧
  setAnswers [true] (mkQuestionTree (Some tu) {[1; 2; 3]})
    = Some (mkQuestionTree (Some (leaf "Character identified: 1")) {[1; 3]}) ∧
  3 ∈ characters (mkQuestionTree (Some (leaf "Character identified: 1")) {[1; 3]}).
Proof.
  assert (buildTree hu {[1; 2; 3]} [1%positive] = Some tu) as Ht
    by (vm_compute; reflexivity).
  assert (3 ∉ node_positive tu) as Hp by (apply (bool_decide_unpack _); vm_compute; exact I).
  assert (3 ∉ node_negative tu) as Hn by (apply (bool_decide_unpack _); vm_compute; exact I).
  assert (3 ∈ ({[1; 2; 3]} : gset Z)) as Hc by (vm_compute; reflexivity).
  assert (setAnswers [true] (mkQuestionTree (Some tu) {[1; 2; 3]})
          = Some (mkQuestionTree (Some (leaf "Character identified: 1")) {[1; 3]})) as Hs
    by (vm_compute; reflexivity).
  split; [exact Ht|]. split; [exact Hp|]. split; [exact Hn|]. split; [exact Hs|].
  destruct (uncovered_id_never_named hu _ _ tu 3 true [] _ _ Ht Hp Hn Hc Hs)
    as [(s1 & Hs1 & Hin) _].
  vm_compute in Hs1. injection Hs1 as <-. exact Hin.
Defined.

(** X7. When the objects of the pool have different question ids, no
    question is asked twice on the way through a built tree, and every
    question asked is one of the pool. *)
Theorem no_question_twice h answers :
  ∀ remaining_ids questions t,
    buildTree h remaining_ids questions = Some t →
    (∀ q q' o o', q ∈ questions → q' ∈ questions →
                  h !! q = Some o → h !! q' = Some o' → q_id o = q_id o' → q = q') →
    NoDup (asked (Some t) answers) ∧
    ∀ i, i ∈ asked (Some t) answers →
         ∃ q o, q ∈ questions ∧ h !! q = Some o ∧ q_id o = i.
Proof.
  induction answers as [|a rest IH]; intros r qs t Ht Hids; simpl.
  - split; [constructor|]. intros i Hi. by apply elem_of_nil in Hi.
  - destruct (buildTree_inv h r qs t Ht)
      as [(msg & -> & _)|(bq & best & l & rt & Hin & Hbest & Hl & Hr & ->)]; simpl.
    { split; [constructor|]. intros i Hi. by apply elem_of_nil in Hi. }
    assert (∀ q, q ∈ remove_question bq qs → q ∈ qs ∧ q ≠ bq) as Hrem.
    { intros q Hq. unfold remove_question in Hq.
      apply list_elem_of_filter in Hq. tauto. }
    assert (∀ child, buildTree h (r ∩ (if a then positive_ids best else negative_ids best))
                       (remove_question bq qs) = Some child →
                     NoDup (q_id best :: asked (Some child) rest) ∧
                     ∀ i, i ∈ q_id best :: asked (Some child) rest →
                          ∃ q o, q ∈ qs ∧ h !! q = Some o ∧ q_id o = i) as Hchild.
    { intros child Hc.
      destruct (IH _ _ _ Hc) as [Hnd Hfrom].
      { intros q q' o o' Hq Hq'. apply Hids; by apply Hrem. }
      split.
      - constructor; [|done]. intros Hdup.
        destruct (Hfrom _ Hdup) as (q & o & Hq & Ho & Hid).
        destruct (Hrem q Hq) as [Hq' Hne]. apply Hne.
        by apply (Hids q bq o best).
      - intros i [->|Hi]%elem_of_cons.
        + by exists bq, best.
        + destruct (Hfrom _ Hi) as (q & o & Hq & Ho & Hid).
          exists q, o. split; [by apply Hrem|done]. }
    destruct a; [by apply (Hchild l) | by apply (Hchild rt)].
Qed.

Lemma no_question_twice_witness :
  buildTree he {[1; 2; 3]} pool0 = Some te ∧
  asked (Some te) [false; true] = [1; 2] ∧
  NoDup (asked (Some te) [false; true]).
Proof.
  assert (buildTree he {[1; 2; 3]} pool0 = Some te) as Ht by (vm_compute; reflexivity).
  split; [exact Ht|]. split; [reflexivity|].
  refine (proj1 (no_question_twice he [false; true] _ _ _ Ht _)).
  intros q q' o o' Hq Hq' Ho Ho' Hid.
  assert (∀ p, p ∈ pool0 → p = 1%positive ∨ p = 2%positive) as Hpool.
  { intros p. unfold pool0. rewrite !elem_of_cons, elem_of_nil. tauto. }
  destruct (Hpool q Hq) as [-> | ->], (Hpool q' Hq') as [-> | ->]; try done;
    vm_compute in Ho, Ho'; injection Ho as <-; injection Ho' as <-; discriminate.
Defined.

(** ** [stoi] and [to_string] *)

Lemma uint_value_pos d acc :
  uint_value d (Z.pos acc) = Z.pos (Pos.of_uint_acc d acc).
Proof.
  revert acc. induction d; intros acc; simpl; [done|..];
    match goal with
    | |- uint_value _ ?v = Z.pos (Pos.of_uint_acc _ ?p) =>
        replace v with (Z.pos p) by lia; apply IHd
    end.
Qed.

Lemma uint_value_0 d : uint_value d 0 = Z.of_N (Pos.of_uint d).
Proof.
  induction d; simpl; [done|exact IHd|..];
    match goal with
    | |- uint_value _ ?v = Z.pos (Pos.of_uint_acc _ ?p) =>
        replace v with (Z.pos p) by lia; apply uint_value_pos
    end.
Qed.

Lemma uint_value_to_uint p : uint_value (Pos.to_uint p) 0 = Z.pos p.
Proof. by rewrite uint_value_0, DecimalPos.Unsigned.of_to. Qed.

Lemma read_digits_no_digit rest acc :
  no_leading_digit rest → read_digits rest acc = acc.
Proof. destruct rest as [|a rest]; simpl; [done|]. by intros ->. Qed.

(** Reading the digits that [d] prints. *)
Lemma read_digits_uint d rest acc :
  read_digits (NilEmpty.string_of_uint d +:+ rest) acc =
  read_digits rest (match d with
                    | Decimal.Nil => acc
                    | _ => Some (uint_value d (default 0 acc))
                    end).
Proof.
  revert acc. induction d; intros acc; [done|..];
    simpl; rewrite IHd; by destruct d.
Qed.

(** [stoi] on printed digits, with or without a minus sign in front. *)
Lemma stoi_digits (minus : bool) d rest :
  d ≠ Decimal.Nil →
  no_leading_digit rest →
  stoi ((if minus then "-" else "") +:+ NilEmpty.string_of_uint d +:+ rest) =
  let v := if minus then - uint_value d 0 else uint_value d 0 in
  if decide (INT_MIN ≤ v ≤ INT_MAX) then Returned v else Thrown (out_of_range "stoi").
Proof.
  intros Hd Hrest.
  assert (∀ k d', read_digits (NilEmpty.string_of_uint d' +:+ rest) (Some k)
                  = Some (uint_value d' k)) as Hread.
  { intros k d'. rewrite read_digits_uint, read_digits_no_digit by done.
    by destruct d'. }
  assert (∀ a s t, String a s +:+ t = String a (s +:+ t)) as Hcons by done.
  assert (∀ t, "" +:+ t = t) as Hnil by done.
  destruct d; [done|..]; destruct minus; simpl NilEmpty.string_of_uint;
    rewrite !Hcons, ?Hnil;
    match goal with
    | |- context [NilEmpty.string_of_uint ?d' +:+ rest] =>
        specialize (Hread) ; set (tl := NilEmpty.string_of_uint d' +:+ rest) in *
    end;
    unfold stoi;
    repeat (progress (
      cbn -[decide uint_value INT_MIN INT_MAX is_space digit_of];
      repeat match goal with
             | |- context [is_space (Ascii ?a ?b ?c ?d ?e ?f ?g ?h)] =>
                 let v := eval vm_compute in (is_space (Ascii a b c d e f g h)) in
                 change (is_space (Ascii a b c d e f g h)) with v
             | |- context [digit_of (Ascii ?a ?b ?c ?d ?e ?f ?g ?h)] =>
                 let v := eval vm_compute in (digit_of (Ascii a b c d e f g h)) in
                 change (digit_of (Ascii a b c d e f g h)) with v
             end));
    subst tl; rewrite Hread; reflexivity.
Qed.

(** [stoi] on the decimal text of an [int], whatever follows it. *)
Lemma stoi_printed z rest :
  INT_MIN ≤ z ≤ INT_MAX →
  no_leading_digit rest →
  stoi (to_string z +:+ rest) = Returned z.
Proof.
  intros Hz Hrest. unfold to_string.
  destruct z as [|p|p]; simpl Z.to_int; unfold NilZero.string_of_int.
  - change (NilZero.string_of_uint Decimal.zero +:+ rest)
      with ("" +:+ NilEmpty.string_of_uint (Decimal.D0 Decimal.Nil) +:+ rest).
    rewrite (stoi_digits false) by done. reflexivity.
  - pose proof (DecimalPos.Unsigned.to_uint_nonnil p) as Hnn.
    replace (NilZero.string_of_uint (Pos.to_uint p) +:+ rest)
      with ("" +:+ NilEmpty.string_of_uint (Pos.to_uint p) +:+ rest)
      by (by destruct (Pos.to_uint p)).
    rewrite (stoi_digits false) by done. cbv zeta.
    rewrite uint_value_to_uint. by rewrite decide_True.
  - pose proof (DecimalPos.Unsigned.to_uint_nonnil p) as Hnn.
    replace (String "-" (NilZero.string_of_uint (Pos.to_uint p)) +:+ rest)
      with ("-" +:+ NilEmpty.string_of_uint (Pos.to_uint p) +:+ rest)
      by (by destruct (Pos.to_uint p)).
    rewrite (stoi_digits true) by done. cbv zeta.
    rewrite uint_value_to_uint. by rewrite decide_True.
Qed.

Lemma skip_spaces_app ws s :
  all_space ws = true → skip_spaces (ws +:+ s) = skip_spaces s.
Proof.
  induction ws as [|a ws IH]; [done|].
  change (String a ws +:+ s) with (String a (ws +:+ s)). cbn [all_space skip_spaces].
  intros [Ha Hws]%andb_true_iff. rewrite Ha. by apply IH.
Qed.

(** X8. [stoi] reads back what [to_string] prints: for every [int] [z],
    [stoi] of the decimal text of [z], after any white space and followed by
    anything that does not start with a digit, returns [z]. *)
Theorem stoi_to_string ws z rest :
  all_space ws = true →
  INT_MIN ≤ z ≤ INT_MAX →
  no_leading_digit rest →
  stoi (ws +:+ to_string z +:+ rest) = Returned z.
Proof.
  intros Hws Hz Hrest.
  rewrite <- (stoi_printed z rest Hz Hrest).
  unfold stoi. by rewrite (skip_spaces_app ws) by done.
Qed.

Lemma stoi_to_string_witness :
  all_space " " = true ∧
  INT_MIN ≤ -2147483648 ≤ INT_MAX ∧ no_leading_digit ",Elsa" ∧
  stoi (" " +:+ to_string (-2147483648) +:+ ",Elsa") = Returned (-2147483648).
Proof.
  assert (all_space " " = true) as Hws by reflexivity.
  assert (INT_MIN ≤ -2147483648 ≤ INT_MAX) as Hz by (unfold INT_MIN, INT_MAX; lia).
  assert (no_leading_digit ",Elsa") as Hr by reflexivity.
  split; [exact Hws|]. split; [exact Hz|]. split; [exact Hr|].
  exact (stoi_to_string " " (-2147483648) ",Elsa" Hws Hz Hr).
Defined.

(** ** Lines and fields *)

Lemma append_cons a s t : String a s +:+ t = String a (s +:+ t).
Proof. done. Qed.

Lemma append_nil_r s : s +:+ "" = s.
Proof. induction s as [|a s IH]; [done|]. by rewrite append_cons, IH. Qed.

Lemma split_on_free d s : free_of d s = true → split_on d s = [s].
Proof.
  induction s as [|a s IH]; simpl; [done|].
  case_decide; [done|]. intros Hs. by rewrite (IH Hs).
Qed.

Lemma split_on_field d s rest :
  free_of d s = true → split_on d (s +:+ String d rest) = s :: split_on d rest.
Proof.
  induction s as [|a s IH]; simpl.
  - intros _. by rewrite decide_True.
  - case_decide; [done|]. intros Hs. by rewrite (IH Hs).
Qed.

(** The decimal text of an integer has only digits and a minus sign. *)
Lemma to_string_free d z :
  digit_of d = None → d ≠ "-"%char → free_of d (to_string z) = true.
Proof.
  intros Hd Hm.
  assert (∀ u, free_of d (NilEmpty.string_of_uint u) = true) as Hu.
  { induction u; simpl; [done|..]; (case_decide as Heq; [by subst d|done]). }
  assert (∀ u, free_of d (NilZero.string_of_uint u) = true) as Hz.
  { intros u. destruct u; try apply Hu. simpl. case_decide as Heq; [by subst d|done]. }
  unfold to_string. destruct (Z.to_int z); simpl; [apply Hz|].
  rewrite decide_False by done. apply Hz.
Qed.

Lemma stoi_to_string_exact z : INT_MIN ≤ z ≤ INT_MAX → stoi (to_string z) = Returned z.
Proof.
  intros Hz. rewrite <- (append_nil_r (to_string z)). by apply stoi_printed.
Qed.

(** ** [readCharacterByID] *)

(** The loop returns the record of the first line that reads as the id. *)
Lemma find_character_returned lines id c :
  find_character lines id = Returned c ↔
  ∃ pre line post,
    lines = (pre ++ line :: post)%list ∧
    (∀ l, l ∈ pre → ∃ v, line_id l = Returned v ∧ v ≠ id) ∧
    line_id line = Returned id ∧
    c = mkCharacter id (nth 1 (split_on "," line) "") (nth 2 (split_on "," line) "").
Proof.
  induction lines as [|l rest IH]; simpl.
  - split; [done|]. intros (pre & line & post & Heq & _). by destruct pre.
  - fold (line_id l). destruct (line_id l) as [v|e] eqn:Hl.
    + case_decide as Hv.
      * subst v. split.
        -- intros [= <-]. exists [], l, rest. split; [done|]. split; [|done].
           intros l' Hl'. by apply elem_of_nil in Hl'.
        -- intros (pre & line & post & Heq & Hpre & Hline & ->).
           destruct pre as [|l' pre]; [simplify_eq/=; try done; congruence|]; simplify_eq/=.
           destruct (Hpre _ (list_elem_of_here _ _)) as (v & Hv & Hne). congruence.
      * rewrite IH. split.
        -- intros (pre & line & post & -> & Hpre & Hline & ->).
           exists (l :: pre), line, post. split; [done|]. split; [|done].
           intros l' [->|Hl']%elem_of_cons; [by exists v|by apply Hpre].
        -- intros (pre & line & post & Heq & Hpre & Hline & ->).
           destruct pre as [|l' pre]; [simplify_eq/=; try done; congruence|]; simplify_eq/=.
           exists pre, line, post. split; [done|]. split; [|done].
           intros l'' Hl''. apply Hpre. by apply list_elem_of_further.
    + split; [done|]. intros (pre & line & post & Heq & Hpre & Hline & _).
      destruct pre as [|l' pre]; [simplify_eq/=; try done; congruence|]; simplify_eq/=.
      destruct (Hpre _ (list_elem_of_here _ _)) as (v & Hv & _). congruence.
Qed.

(** The loop throws what [stoi] throws on the first line that does not read
    as a number, if no line before it reads as the id; with neither such a
    line nor the id it throws that the id was not found. *)
Lemma find_character_thrown lines id e :
  find_character lines id = Thrown e ↔
  (∃ pre line post,
     lines = (pre ++ line :: post)%list ∧
     (∀ l, l ∈ pre → ∃ v, line_id l = Returned v ∧ v ≠ id) ∧
     line_id line = Thrown e) ∨
  ((∀ l, l ∈ lines → ∃ v, line_id l = Returned v ∧ v ≠ id) ∧
   e = runtime_error "Character with the given ID not found").
Proof.
  induction lines as [|l rest IH]; simpl.
  - split.
    + intros [= <-]. right. split; [|done]. intros l Hl. by apply elem_of_nil in Hl.
    + intros [(pre & line & post & Heq & _)|[_ ->]]; [by destruct pre|done].
  - fold (line_id l). destruct (line_id l) as [v|e'] eqn:Hl.
    + case_decide as Hv.
      * subst v. split; [done|].
        intros [(pre & line & post & Heq & Hpre & Hline)|[Hall _]].
        -- destruct pre as [|l' pre]; [simplify_eq/=; try done; congruence|]; simplify_eq/=.
           destruct (Hpre _ (list_elem_of_here _ _)) as (v & Hv & Hne). congruence.
        -- destruct (Hall l (list_elem_of_here _ _)) as (v & Hv & Hne). congruence.
      * rewrite IH. split.
        -- intros [(pre & line & post & -> & Hpre & Hline)|[Hall ->]].
           ++ left. exists (l :: pre), line, post. split; [done|]. split; [|done].
              intros l' [->|Hl']%elem_of_cons; [by exists v|by apply Hpre].
           ++ right. split; [|done].
              intros l' [->|Hl']%elem_of_cons; [by exists v|by apply Hall].
        -- intros [(pre & line & post & Heq & Hpre & Hline)|[Hall ->]].
           ++ destruct pre as [|l' pre]; [simplify_eq/=; try done; congruence|]; simplify_eq/=.
              left. exists pre, line, post. split; [done|]. split; [|done].
              intros l'' Hl''. apply Hpre. by apply list_elem_of_further.
           ++ right. split; [|done]. intros l' Hl'. apply Hall.
              by apply list_elem_of_further.
    + split.
      * intros [= <-]. left. exists [], l, rest. split; [done|]. split; [|done].
        intros l' Hl'. by apply elem_of_nil in Hl'.
      * intros [(pre & line & post & Heq & Hpre & Hline)|[Hall _]].
        -- destruct pre as [|l' pre]; [simplify_eq/=; try done; congruence|]; simplify_eq/=.
           destruct (Hpre _ (list_elem_of_here _ _)) as (v & Hv & _). congruence.
        -- destruct (Hall l (list_elem_of_here _ _)) as (v & Hv & _). congruence.
Qed.

Lemma stoi_range s v : stoi s = Returned v → INT_MIN ≤ v ≤ INT_MAX.
Proof.
  unfold stoi.
  destruct (match skip_spaces s with
            | String "-" s' => (true, s')
            | String "+" s' => (false, s')
            | _ => (false, skip_spaces s)
            end) as [negative s2].
  destruct (read_digits s2 None) as [w|]; [|done].
  cbv zeta. case_decide; [|done]. by intros [= <-].
Qed.

(** X9. [readCharacterByID] returns a record exactly when the file exists
    and, after its first line, has a line whose text before the first comma
    [stoi] reads as the id, every line before it reading as another number:
    the record has the id and the second and third fields of the first such
    line.  The first line of the file is never looked at, and an id that is
    found is in the range of [int]. *)
Theorem readCharacterByID_returns fs filename id c :
  (readCharacterByID fs filename id = Returned c ↔
   ∃ header pre line post,
     fs !! filename = Some (header :: pre ++ line :: post)%list ∧
     (∀ l, l ∈ pre → ∃ v, line_id l = Returned v ∧ v ≠ id) ∧
     line_id line = Returned id ∧
     c = mkCharacter id (nth 1 (split_on "," line) "") (nth 2 (split_on "," line) "")) ∧
  (readCharacterByID fs filename id = Returned c →
   char_id c = id ∧ INT_MIN ≤ id ≤ INT_MAX).
Proof.
  assert (readCharacterByID fs filename id = Returned c ↔
    ∃ header pre line post,
      fs !! filename = Some (header :: pre ++ line :: post)%list ∧
      (∀ l, l ∈ pre → ∃ v, line_id l = Returned v ∧ v ≠ id) ∧
      line_id line = Returned id ∧
      c = mkCharacter id (nth 1 (split_on "," line) "") (nth 2 (split_on "," line) ""))
    as Hiff.
  { unfold readCharacterByID. destruct (fs !! filename) as [lines|] eqn:Hfile.
    - rewrite find_character_returned. split.
      + intros (pre & line & post & Htl & Hrest).
        destruct lines as [|header lines]; simpl in Htl; [by destruct pre|].
        subst lines. by exists header, pre, line, post.
      + intros (header & pre & line & post & [= ->] & Hrest).
        by exists pre, line, post.
    - split; [done|]. by intros (header & pre & line & post & Heq & _). }
  split; [exact Hiff|].
  intros (header & pre & line & post & _ & _ & Hline & ->)%Hiff.
  split; [done|]. by eapply stoi_range.
Qed.

Lemma readCharacterByID_returns_witness :
  readCharacterByID fs0 "characters.csv" 1
    = Returned (mkCharacter 1 "Mickey Mouse" "mickey.png").
Proof.
  apply (proj1 (readCharacterByID_returns fs0 "characters.csv" 1 _)).
  exists "id,name,image", ["0,Unknown,unknown.png"],
         "1,Mickey Mouse,mickey.png", ["2,Elsa,elsa.png"].
  split; [vm_compute; reflexivity|]. split; [|split; vm_compute; reflexivity].
  intros l ->%list_elem_of_singleton. exists 0. split; [vm_compute; reflexivity|done].
Defined.

(** X10. [readCharacterByID] throws in three cases and no other: the file
    does not exist ("File not found"); a line after the first does not
    start with a number, an empty line for one, and no line before it reads
    as the id (the exception of [stoi], even if the id comes later in the
    file); or every line after the first reads as another number
    ("Character with the given ID not found"). *)
Theorem readCharacterByID_throws fs filename id e :
  (readCharacterByID fs filename id = Thrown e ↔
   (fs !! filename = None ∧ e = runtime_error "File not found") ∨
   (∃ lines, fs !! filename = Some lines ∧
      ((∃ pre line post,
          tail lines = (pre ++ line :: post)%list ∧
          (∀ l, l ∈ pre → ∃ v, line_id l = Returned v ∧ v ≠ id) ∧
          line_id line = Thrown e) ∨
       ((∀ l, l ∈ tail lines → ∃ v, line_id l = Returned v ∧ v ≠ id) ∧
        e = runtime_error "Character with the given ID not found")))) ∧
  line_id "" = Thrown (invalid_argument "stoi").
Proof.
  split; [|reflexivity].
  unfold readCharacterByID. destruct (fs !! filename) as [lines|] eqn:Hfile.
  - rewrite find_character_thrown. split.
    + intros H. right. by exists lines.
    + intros [[? _]|(lines' & [= <-] & H)]; done.
  - split.
    + intros [= <-]. by left.
    + intros [[_ ->]|(lines' & ? & _)]; done.
Qed.

Lemma readCharacterByID_throws_witness :
  readCharacterByID fs0 "missing.csv" 1 = Thrown (runtime_error "File not found") ∧
  readCharacterByID (<["characters.csv" := ["id,name"; "7,Dumbo,d.png"; ""; "1,Mickey,m.png"]]> fs0)
                    "characters.csv" 1
    = Thrown (invalid_argument "stoi").
Proof.
  split.
  - apply (proj1 (readCharacterByID_throws fs0 "missing.csv" 1 _)).
    left. split; [vm_compute; reflexivity|done].
  - apply (proj1 (readCharacterByID_throws _ "characters.csv" 1 _)).
    right. eexists. split; [apply lookup_insert_eq|].
    left. exists ["7,Dumbo,d.png"], "", ["1,Mickey,m.png"].
    split; [reflexivity|]. split; [|vm_compute; reflexivity].
    intros l ->%list_elem_of_singleton. exists 7. split; [vm_compute; reflexivity|done].
Defined.

(** X11. A file written from records is read back: after any first line,
    with one [character_line] for each record (ids in the range of [int],
    names and paths without commas), [readCharacterByID] returns the first
    record that has the id, and throws that the id was not found when no
    record has it. *)
Theorem readCharacterByID_written fs filename header records id :
  (∀ c, c ∈ records → writable c) →
  readCharacterByID (<[filename := header :: (character_line <$> records)]> fs)
                    filename id =
  match list_find (λ c, char_id c = id) records with
  | Some (_, c) => Returned c
  | None => Thrown (runtime_error "Character with the given ID not found")
  end.
Proof.
  intros Hw. unfold readCharacterByID. rewrite lookup_insert_eq. simpl.
  induction records as [|c rest IH]; simpl; [done|].
  destruct (Hw c (list_elem_of_here _ _)) as (Hid & Hname & Hpath).
  assert (split_on "," (character_line c)
          = [to_string (char_id c); name c; image_path c]) as Hsplit.
  { change (character_line c)
      with (to_string (char_id c) +:+ String "," (name c +:+ String "," (image_path c))).
    rewrite split_on_field by (by apply to_string_free).
    rewrite split_on_field by done. by rewrite split_on_free. }
  rewrite Hsplit. simpl. rewrite stoi_to_string_exact by done.
  case_decide as Heq.
  - by destruct c.
  - change (list_fmap Character string character_line rest)
      with (character_line <$> rest).
    rewrite IH.
    + by destruct (list_find (λ c0, char_id c0 = id) rest) as [[i c']|].
    + intros c' Hc'. apply Hw. by apply list_elem_of_further.
Qed.

Lemma readCharacterByID_written_witness :
  (∀ c, c ∈ [mkCharacter 3 "Ariel" "ariel.png"; mkCharacter (-4) "Stitch" "s.png"] →
        writable c) ∧
  readCharacterByID
    (<["c.csv" := "id,name,image" ::
                  (character_line <$> [mkCharacter 3 "Ariel" "ariel.png";
                                       mkCharacter (-4) "Stitch" "s.png"])]> ∅)
    "c.csv" (-4)
  = Returned (mkCharacter (-4) "Stitch" "s.png").
Proof.
  assert (∀ c, c ∈ [mkCharacter 3 "Ariel" "ariel.png"; mkCharacter (-4) "Stitch" "s.png"] →
               writable c) as Hw.
  { intros c Hc.
    assert (c = mkCharacter 3 "Ariel" "ariel.png" ∨ c = mkCharacter (-4) "Stitch" "s.png")
      as [-> | ->] by (revert Hc; rewrite !elem_of_cons, elem_of_nil; tauto);
      (split; [unfold INT_MIN, INT_MAX; simpl; lia|split; reflexivity]). }
  split; [exact Hw|].
  exact (readCharacterByID_written ∅ "c.csv" "id,name,image" _ (-4) Hw).
Defined.

(** ** [parseSet] *)

Lemma length_append a b :
  String.length (a +:+ b) = (String.length a + String.length b)%nat.
Proof. induction a as [|c a IH]; [done|]. rewrite append_cons. simpl. by rewrite IH. Qed.

Lemma substring_prefix a b : substring 0 (String.length a) (a +:+ b) = a.
Proof. induction a as [|c a IH]; [by destruct b|]. rewrite append_cons. simpl. by rewrite IH. Qed.

(** [parseSet] drops the first and the last character, whatever they are,
    and reads the items between them. *)
Lemma parseSet_strip a b body :
  Z.of_nat (String.length body) + 2 < 2 ^ 64 →
  parseSet (String a (body +:+ String b "")) = insert_items (getline_all "." body) ∅.
Proof.
  intros Hlen. unfold parseSet, substr, size_t_sub.
  assert (String.length (String a (body +:+ String b ""))
          = S (S (String.length body))) as Hl.
  { simpl. rewrite length_append. simpl. lia. }
  rewrite Hl. rewrite decide_False by lia.
  rewrite Z.mod_small by lia.
  replace (Z.to_nat _) with (String.length body) by lia.
  change (substring 1 (String.length body) (String a (body +:+ String b "")))
    with (substring 0 (String.length body) (body +:+ String b "")).
  by rewrite substring_prefix.
Qed.

Lemma getline_all_free d s :
  free_of d s = true → s ≠ "" → getline_all d s = [s].
Proof.
  induction s as [|a s IH]; [done|]. simpl. case_decide; [done|].
  intros Hs _. destruct s as [|a' s']; [done|]. by rewrite IH.
Qed.

Lemma getline_all_field d s rest :
  free_of d s = true → getline_all d (s +:+ String d rest) = s :: getline_all d rest.
Proof.
  induction s as [|a s IH]; simpl.
  - intros _. by rewrite decide_True.
  - case_decide; [done|]. intros Hs. by rewrite (IH Hs).
Qed.

Lemma to_string_nonempty z : to_string z ≠ "".
Proof.
  unfold to_string. destruct z as [|p|p]; simpl; try done.
  pose proof (DecimalPos.Unsigned.to_uint_nonnil p). by destruct (Pos.to_uint p).
Qed.

Lemma dotted_cons x y rest :
  dotted (x :: y :: rest) = to_string x +:+ String "." (dotted (y :: rest)).
Proof. done. Qed.

Lemma getline_all_dotted l : getline_all "." (dotted l) = to_string <$> l.
Proof.
  induction l as [|x [|y rest] IH]; [done| |].
  - simpl. apply getline_all_free; [by apply to_string_free|apply to_string_nonempty].
  - rewrite dotted_cons, getline_all_field by (by apply to_string_free).
    by rewrite IH.
Qed.

Lemma insert_items_to_string l result :
  (∀ x, x ∈ l → INT_MIN ≤ x ≤ INT_MAX) →
  insert_items (to_string <$> l) result = Returned (list_to_set l ∪ result).
Proof.
  revert result. induction l as [|x rest IH]; intros result Hl; simpl.
  - f_equal. apply set_eq. intros y. rewrite elem_of_union, elem_of_empty. tauto.
  - rewrite stoi_to_string_exact by apply Hl, list_elem_of_here.
    change (list_fmap Z string to_string rest) with (to_string <$> rest).
    rewrite IH by (intros y Hy; by apply Hl, list_elem_of_further).
    f_equal. apply set_eq. intros y. rewrite !elem_of_union. tauto.
Qed.

Lemma insert_items_range items result S :
  insert_items items result = Returned S →
  (∀ x, x ∈ result → INT_MIN ≤ x ≤ INT_MAX) →
  ∀ x, x ∈ S → INT_MIN ≤ x ≤ INT_MAX.
Proof.
  revert result. induction items as [|item rest IH]; intros result; simpl.
  - by intros [= <-].
  - destruct (stoi item) as [v|e] eqn:Hv; [|done].
    intros Hrest Hres. apply (IH _ Hrest).
    intros x [->%elem_of_singleton|Hx]%elem_of_union; [by eapply stoi_range|by apply Hres].
Qed.

Lemma set_literal_length l :
  String.length (set_literal l) = S (S (String.length (dotted l))).
Proof.
  change (set_literal l) with (String "{" (dotted l +:+ "}")).
  simpl. rewrite length_append. simpl. lia.
Qed.

Lemma parseSet_set_literal_aux l :
  (∀ x, x ∈ l → INT_MIN ≤ x ≤ INT_MAX) →
  Z.of_nat (String.length (set_literal l)) < 2 ^ 64 →
  parseSet (set_literal l) = Returned (list_to_set l).
Proof.
  intros Hl Hlen. rewrite set_literal_length in Hlen.
  change (set_literal l) with (String "{" (dotted l +:+ String "}" "")).
  rewrite parseSet_strip by lia.
  rewrite getline_all_dotted, insert_items_to_string by done.
  f_equal. apply set_eq. intros y. rewrite elem_of_union, elem_of_empty. tauto.
Qed.

(** X12. [parseSet] reads back the text of a set: for a list of [int]s
    written between braces with dots between them, it returns the set of
    the members of the list; the empty list, written as two braces, gives
    the empty set. *)
Theorem parseSet_set_literal l :
  (∀ x, x ∈ l → INT_MIN ≤ x ≤ INT_MAX) →
  Z.of_nat (String.length (set_literal l)) < 2 ^ 64 →
  parseSet (set_literal l) = Returned (list_to_set l).
Proof.
  intros Hl Hlen. rewrite set_literal_length in Hlen.
  change (set_literal l) with (String "{" (dotted l +:+ String "}" "")).
  rewrite parseSet_strip by lia.
  rewrite getline_all_dotted, insert_items_to_string by done.
  f_equal. apply set_eq. intros y. rewrite elem_of_union, elem_of_empty. tauto.
Qed.

Lemma parseSet_set_literal_witness :
  (∀ x, x ∈ [3; -1; 3; 20] → INT_MIN ≤ x ≤ INT_MAX) ∧
  Z.of_nat (String.length (set_literal [3; -1; 3; 20])) < 2 ^ 64 ∧
  parseSet "{3.-1.3.20}" = Returned {[3; -1; 20]}.
Proof.
  assert (∀ x, x ∈ [3; -1; 3; 20] → INT_MIN ≤ x ≤ INT_MAX) as Hl.
  { intros x. rewrite !elem_of_cons, elem_of_nil. unfold INT_MIN, INT_MAX. lia. }
  assert (Z.of_nat (String.length (set_literal [3; -1; 3; 20])) < 2 ^ 64) as Hlen
    by (vm_compute; reflexivity).
  split; [exact Hl|]. split; [exact Hlen|].
  refine (eq_trans (parseSet_set_literal [3; -1; 3; 20] Hl Hlen
                    : parseSet "{3.-1.3.20}" = _) _).
  vm_compute. reflexivity.
Defined.

(** X13. What [parseSet] does with other texts.  The empty string makes
    [substr] throw; a single character gives the empty set; the first and
    the last character are dropped without being looked at; an empty item,
    as two dots in a row leave one, makes [stoi] throw; and every member of
    a set that is returned is in the range of [int]. *)
Theorem parseSet_edges :
  parseSet "" = Thrown (out_of_range "basic_string::substr") ∧
  (∀ a, parseSet (String a "") = Returned ∅) ∧
  (∀ a b body,
     Z.of_nat (String.length body) + 2 < 2 ^ 64 →
     parseSet (String a (body +:+ String b ""))
     = insert_items (getline_all "." body) ∅) ∧
  (∀ a b l tail,
     (∀ x, x ∈ l → INT_MIN ≤ x ≤ INT_MAX) →
     Z.of_nat (String.length (dotted l +:+ ".." +:+ tail)) + 2 < 2 ^ 64 →
     parseSet (String a ((dotted l +:+ ".." +:+ tail) +:+ String b ""))
     = Thrown (invalid_argument "stoi")) ∧
  (∀ s S x, parseSet s = Returned S → x ∈ S → INT_MIN ≤ x ≤ INT_MAX).
Proof.
  split; [reflexivity|]. split; [intros a; reflexivity|].
  split; [apply parseSet_strip|]. split.
  - intros a b l tail Hl Hlen. rewrite parseSet_strip by done.
    assert (∀ items result,
              insert_items ((to_string <$> l) ++ "" :: items)%list result
              = Thrown (invalid_argument "stoi")) as Hthrow.
    { intros items. clear Hlen. induction l as [|x rest IH]; intros result; [done|].
      simpl. rewrite stoi_to_string_exact by apply Hl, list_elem_of_here.
      apply IH. intros y Hy. by apply Hl, list_elem_of_further. }
    destruct l as [|x rest].
    + change (dotted [] +:+ ".." +:+ tail) with (String "." (String "." tail)).
      reflexivity.
    + assert (getline_all "." (dotted (x :: rest) +:+ ".." +:+ tail)
              = ((to_string <$> (x :: rest)) ++ "" :: getline_all "." tail)%list) as ->.
      { clear Hlen Hthrow Hl. revert x.
        induction rest as [|y rest IH]; intros x.
        - change (dotted [x] +:+ ".." +:+ tail)
            with (to_string x +:+ String "." (String "." tail)).
          rewrite getline_all_field by (by apply to_string_free).
          reflexivity.
        - rewrite dotted_cons.
          replace ((to_string x +:+ String "." (dotted (y :: rest))) +:+ ".." +:+ tail)
            with (to_string x +:+ String "." (dotted (y :: rest) +:+ ".." +:+ tail)).
          + rewrite getline_all_field by (by apply to_string_free).
            by rewrite IH.
          + generalize (dotted (y :: rest)). intros u. generalize (".." +:+ tail).
            intros w. induction (to_string x) as [|c t IHt]; [done|].
            rewrite !append_cons. by rewrite IHt. }
      apply Hthrow.
  - intros s S x. unfold parseSet. destruct (substr s 1 _) as [numbers|e]; [|done].
    intros HS Hx. eapply insert_items_range; [exact HS| |exact Hx].
    intros y Hy. by apply elem_of_empty in Hy.
Qed.

Lemma parseSet_edges_witness :
  parseSet "x12.-3y" = insert_items ["12"; "-3"] ∅ ∧
  parseSet "{1..2}" = Thrown (invalid_argument "stoi").
Proof.
  split.
  - apply (proj1 (proj2 (proj2 parseSet_edges)) "x"%char "y"%char "12.-3").
    vm_compute. reflexivity.
  - apply (proj1 (proj2 (proj2 (proj2 parseSet_edges))) "{"%char "}"%char [1] "2").
    + intros x ->%list_elem_of_singleton. unfold INT_MIN, INT_MAX. lia.
    + vm_compute. reflexivity.
Defined.

(** ** [readQuestionsFromCSV] and the constructor *)

(** The loop of [readQuestionsFromCSV] only adds objects to the store; when
    it returns, it has appended to the vector one new address for each
    line, in the order of the lines, no address twice. *)
Lemma read_question_lines_spec lines :
  ∀ questions σ res σ',
    read_question_lines lines questions σ = Some (res, σ') →
    σ ⊆ σ' ∧
    ∀ qs', res = Returned qs' →
      ∃ new, qs' = (questions ++ new)%list ∧ NoDup new ∧
             (∀ p, p ∈ new → σ !! p = None) ∧
             Forall2 (loaded σ') lines new.
Proof.
  induction lines as [|line rest IH]; intros qs σ res σ' Hrun; simpl in Hrun.
  - injection Hrun as <- <-. split; [done|]. intros qs' [= <-].
    exists []. rewrite app_nil_r. split; [done|]. split; [constructor|].
    split; [|constructor]. intros p Hp. by apply elem_of_nil in Hp.
  - destruct (parse_question line) as [[q|e]|] eqn:Hparse; [| |done].
    + unfold new_Question in Hrun. simpl in Hrun.
      set (p := fresh (dom σ)) in *.
      assert (σ !! p = None) as Hp by apply not_elem_of_dom, is_fresh.
      destruct (IH _ _ _ _ Hrun) as [Hsub Hret].
      assert (σ ⊆ σ') as Hsub'.
      { etrans; [|exact Hsub]. by apply insert_subseteq. }
      split; [done|]. intros qs' Hres.
      destruct (Hret qs' Hres) as (new & -> & Hnd & Hfresh & Hloaded).
      exists (p :: new). split; [by rewrite <- app_assoc|].
      split; [|split].
      * constructor; [|done]. intros Hin. apply Hfresh in Hin.
        by rewrite lookup_insert_eq in Hin.
      * intros p' [->|Hp']%elem_of_cons; [done|].
        apply Hfresh in Hp'. destruct (σ !! p') as [o|] eqn:Ho; [|done].
        apply (lookup_weaken _ (<[p:=q]> σ)) in Ho; [|by apply insert_subseteq].
        rewrite Ho in Hp'. discriminate.
      * constructor; [|done]. exists q. split; [done|].
        eapply lookup_weaken; [|exact Hsub]. apply lookup_insert_eq.
    + injection Hrun as <- <-. split; [done|]. by intros qs' [=].
Qed.


(** X14. When [readQuestionsFromCSV] returns, its vector holds one pointer
    for each line after the first, in the order of the file; the pointers
    are different from each other and were free before the call; each
    points to the question that its line reads as; no object that was in
    the store has changed.  So the vector is a pool as the theorems on
    [buildTree] take it: valid and without a pointer twice.  A file that
    cannot be opened gives the empty vector and an unchanged store, no
    error. *)
Theorem readQuestionsFromCSV_pool fs filename σ questions σ' :
  readQuestionsFromCSV fs filename σ = Some (Returned questions, σ') →
  σ ⊆ σ' ∧
  NoDup questions ∧
  pool_valid σ' questions ∧
  (∀ p, p ∈ questions → σ !! p = None) ∧
  (∀ lines, fs !! filename = Some lines → Forall2 (loaded σ') (tail lines) questions) ∧
  (fs !! filename = None → questions = [] ∧ σ' = σ).
Proof.
  unfold readQuestionsFromCSV. destruct (fs !! filename) as [lines|] eqn:Hfile.
  - intros Hrun.
    destruct (read_question_lines_spec _ _ _ _ _ Hrun) as [Hsub Hret].
    destruct (Hret _ eq_refl) as (new & -> & Hnd & Hfresh & Hloaded). simpl.
    split; [done|]. split; [done|]. split; [|split; [done|split; [|done]]].
    + intros p Hp. apply list_elem_of_lookup in Hp as [i Hi].
      destruct (Forall2_lookup_r _ _ _ _ _ Hloaded Hi) as (line & _ & q & _ & Hq).
      by exists q.
    + by intros lines' [= <-].
  - intros [= <- <-]. split; [done|]. split; [constructor|].
    split; [|split; [|split; [done|done]]]; intros p Hp; by apply elem_of_nil in Hp.
Qed.

Lemma readQuestionsFromCSV_pool_witness :
  readQuestionsFromCSV fsq "questions.csv" ∅ = Some (Returned pool0, he) ∧
  NoDup pool0 ∧ pool_valid he pool0.
Proof.
  assert (readQuestionsFromCSV fsq "questions.csv" ∅ = Some (Returned pool0, he)) as Hrun
    by (vm_compute; reflexivity).
  split; [exact Hrun|].
  destruct (readQuestionsFromCSV_pool fsq "questions.csv" ∅ pool0 he Hrun)
    as (_ & Hnd & Hv & _).
  by split.
Defined.






(** ** Lines of the question file *)

Lemma free_of_app d a b : free_of d (a +:+ b) = free_of d a && free_of d b.
Proof.
  induction a as [|c a IH]; [done|]. rewrite append_cons. simpl.
  by case_decide.
Qed.

Lemma dotted_free d l :
  digit_of d = None → d ≠ "-"%char → d ≠ "."%char → free_of d (dotted l) = true.
Proof.
  intros Hd Hm Hdot. induction l as [|x [|y rest] IH]; [done|by apply to_string_free|].
  rewrite dotted_cons, free_of_app, to_string_free by done. simpl.
  rewrite decide_False by done. exact IH.
Qed.

Lemma set_literal_comma_free l : free_of "," (set_literal l) = true.
Proof.
  change (set_literal l) with (String "{" (dotted l +:+ "}")).
  simpl. by rewrite free_of_app, dotted_free.
Qed.

Lemma question_line_fields id text pos_ids neg_ids :
  free_of "," text = true →
  getline_all "," (question_line id text pos_ids neg_ids)
  = [to_string id; text; set_literal pos_ids; set_literal neg_ids].
Proof.
  intros Htext.
  change (question_line id text pos_ids neg_ids)
    with (to_string id +:+ String "," (text +:+ String ","
            (set_literal pos_ids +:+ String "," (set_literal neg_ids)))).
  rewrite getline_all_field by (by apply to_string_free).
  rewrite getline_all_field by done.
  rewrite getline_all_field by apply set_literal_comma_free.
  by rewrite getline_all_free by (apply set_literal_comma_free || done).
Qed.

Lemma back_snoc s b : back (s +:+ String b "") = Some b.
Proof.
  induction s as [|a s IH]; [done|]. rewrite append_cons.
  destruct s as [|a' s']; [done|]. exact IH.
Qed.

Lemma substr_strip a b body :
  Z.of_nat (String.length body) + 2 < 2 ^ 64 →
  substr (String a (body +:+ String b "")) 1
         (size_t_sub (Z.of_nat (String.length (String a (body +:+ String b "")))) 2)
  = Returned body.
Proof.
  intros Hlen. unfold substr, size_t_sub.
  assert (String.length (String a (body +:+ String b ""))
          = S (S (String.length body))) as Hl.
  { simpl. rewrite length_append. simpl. lia. }
  rewrite Hl. rewrite decide_False by lia.
  rewrite Z.mod_small by lia.
  replace (Z.to_nat _) with (String.length body) by lia.
  change (substring 1 (String.length body) (String a (body +:+ String b "")))
    with (substring 0 (String.length body) (body +:+ String b "")).
  by rewrite substring_prefix.
Qed.

Lemma unquote_plain text f :
  front text = Some f → f ≠ dquote → unquote text = Some (Returned text).
Proof. intros Hf Hne. unfold unquote. rewrite Hf. simpl. by rewrite decide_False. Qed.

Lemma unquote_quoted inner :
  Z.of_nat (String.length inner) + 2 < 2 ^ 64 →
  unquote (quoted inner) = Some (Returned inner).
Proof.
  intros Hlen.
  assert (front (quoted inner) = Some dquote) as Hfront by done.
  assert (back (quoted inner) = Some dquote) as Hback
    by apply (back_snoc (String dquote inner)).
  unfold unquote. rewrite Hfront. cbn [mbind option_bind].
  rewrite decide_True by done. rewrite Hback. cbn [mbind option_bind].
  rewrite decide_True by done. unfold quoted. by rewrite substr_strip.
Qed.

(** The line written from data reads as the question of the data. *)
Lemma parse_data_line d :
  data_ok d → parse_question (data_line d) = Some (Returned (data_question d)).
Proof.
  intros (Hid & Hfree & (f & Hf & Hq) & Hpos & Hneg & Hlp & Hln).
  unfold parse_question, data_line. rewrite question_line_fields by done.
  cbn [nth]. rewrite (unquote_plain _ f) by done. cbn [mbind option_bind].
  rewrite stoi_to_string_exact by done.
  by rewrite !parseSet_set_literal_aux by done.
Qed.

(** X17. What a line of the question file reads as.  The line written from
    an id, a text without comma, and two lists of ids reads as the question
    with that id, that text and the sets of the members of the lists; a
    text between double quotes loses the quotes.  A line whose second field
    is empty, an empty line for one, makes the loop read the first
    character of an empty string, which is undefined.  A line that reads as
    a question has at least four fields. *)
Theorem parse_question_written :
  (∀ d, data_ok d → parse_question (data_line d) = Some (Returned (data_question d))) ∧
  (∀ id inner pos_ids neg_ids,
     INT_MIN ≤ id ≤ INT_MAX →
     free_of "," inner = true →
     Z.of_nat (String.length inner) + 2 < 2 ^ 64 →
     (∀ x, x ∈ pos_ids → INT_MIN ≤ x ≤ INT_MAX) →
     (∀ x, x ∈ neg_ids → INT_MIN ≤ x ≤ INT_MAX) →
     Z.of_nat (String.length (set_literal pos_ids)) < 2 ^ 64 →
     Z.of_nat (String.length (set_literal neg_ids)) < 2 ^ 64 →
     parse_question (question_line id (quoted inner) pos_ids neg_ids)
     = Some (Returned (Question_new id inner (list_to_set pos_ids)
                                    (list_to_set neg_ids)))) ∧
  (∀ line, nth 1 (getline_all "," line) "" = "" → parse_question line = None) ∧
  (∀ line q, parse_question line = Some (Returned q) →
             (4 ≤ length (getline_all "," line))%nat).
Proof.
  split; [exact parse_data_line|]. split; [|split].
  - intros id inner pos_ids neg_ids Hid Hfree Hlen Hpos Hneg Hlp Hln.
    assert (free_of "," (quoted inner) = true) as Hq.
    { unfold quoted. cbn [free_of]. rewrite decide_False by done.
      rewrite free_of_app, Hfree. done. }
    unfold parse_question. rewrite question_line_fields by done. cbn [nth].
    rewrite unquote_quoted by done. cbn [mbind option_bind].
    rewrite stoi_to_string_exact by done.
    by rewrite !parseSet_set_literal_aux by done.
  - intros line Htext. unfold parse_question. cbv zeta. by rewrite Htext.
  - intros line q. unfold parse_question. cbv zeta.
    destruct (unquote _) as [[text'|e]|]; cbn [mbind option_bind]; [|done..].
    destruct (stoi _) as [id|e]; [|done].
    destruct (parseSet (nth 2 _ _)) as [ts|e]; [|done].
    destruct (le_lt_dec 4 (length (getline_all "," line))) as [|Hshort]; [done|].
    rewrite (nth_overflow _ "" (n:=3)) by lia. done.
Qed.

Lemma parse_question_written_witness :
  data_ok (mkData 1 "Q1" [1] [2; 3]) ∧
  parse_question (question_line 1 "Q1" [1] [2; 3]) = Some (Returned e1) ∧
  parse_question "" = None.
Proof.
  assert (data_ok (mkData 1 "Q1" [1] [2; 3])) as Hok.
  { split; [unfold INT_MIN, INT_MAX; simpl; lia|]. split; [reflexivity|].
    split; [exists "Q"%char; split; [reflexivity|discriminate]|].
    split; [|split; [|split; vm_compute; reflexivity]];
      intros x; simpl; rewrite ?elem_of_cons, elem_of_nil;
      unfold INT_MIN, INT_MAX; lia. }
  split; [exact Hok|]. split.
  - refine (eq_trans (proj1 parse_question_written _ Hok) _).
    vm_compute. reflexivity.
  - apply (proj1 (proj2 (proj2 parse_question_written))). reflexivity.
Defined.

(** The loop of [readQuestionsFromCSV] returns when every line reads as a
    question. *)
Lemma read_question_lines_total lines :
  (∀ line, line ∈ lines → ∃ q, parse_question line = Some (Returned q)) →
  ∀ questions σ, ∃ qs' σ',
    read_question_lines lines questions σ = Some (Returned qs', σ').
Proof.
  induction lines as [|line rest IH]; intros Hall qs σ; simpl; [eauto|].
  destruct (Hall line (list_elem_of_here _ _)) as [q ->].
  apply IH. intros l Hl. by apply Hall, list_elem_of_further.
Qed.

(** X18. A question file written from data is read back: after any first
    line, with one line for each item, [readQuestionsFromCSV] returns; its
    vector has one pointer for each item, in their order, no pointer
    twice, each to the question of its item with null children; and
    the objects that were in the store are as they were. *)
Theorem readQuestionsFromCSV_written fs filename header records σ :
  (∀ d, d ∈ records → data_ok d) →
  ∃ questions σ',
    readQuestionsFromCSV (<[filename := header :: (data_line <$> records)]> fs)
                         filename σ
      = Some (Returned questions, σ') ∧
    length questions = length records ∧
    (∀ i d p, records !! i = Some d → questions !! i = Some p →
              σ' !! p = Some (data_question d)) ∧
    NoDup questions ∧
    σ ⊆ σ'.
Proof.
  intros Hok. unfold readQuestionsFromCSV. rewrite lookup_insert_eq. cbn [tail].
  destruct (read_question_lines_total (data_line <$> records)) with (questions := @nil loc) (σ := σ)
    as (qs' & σ' & Hrun).
  { intros line (d & -> & Hd)%list_elem_of_fmap. exists (data_question d).
    by apply parse_data_line, Hok. }
  exists qs', σ'. split; [done|].
  destruct (read_question_lines_spec _ _ _ _ _ Hrun) as [Hsub Hret].
  destruct (Hret _ eq_refl) as (new & Hnew & Hnd & _ & Hloaded).
  simpl in Hnew. subst qs'.
  pose proof (Forall2_length _ _ _ Hloaded) as Hlen. rewrite length_fmap in Hlen.
  split; [done|]. split; [|done].
  intros i d p Hd Hp.
  assert ((data_line <$> records) !! i = Some (data_line d)) as Hline
    by (by rewrite list_lookup_fmap, Hd).
  destruct (Forall2_lookup_lr _ _ _ _ _ _ Hloaded Hline Hp) as (q & Hparse & Hq).
  rewrite parse_data_line in Hparse by (apply Hok; by eapply list_elem_of_lookup_2).
  by injection Hparse as <-.
Qed.

Lemma readQuestionsFromCSV_written_witness :
  (∀ d, d ∈ [mkData 1 "Q1" [1] [2; 3]; mkData 2 "Q2" [2] [1; 3]] → data_ok d) ∧
  ∃ questions σ',
    readQuestionsFromCSV fsq "questions.csv" ∅ = Some (Returned questions, σ') ∧
    length questions = 2%nat.
Proof.
  assert (∀ d, d ∈ [mkData 1 "Q1" [1] [2; 3]; mkData 2 "Q2" [2] [1; 3]] → data_ok d)
    as Hok.
  { intros d Hd.
    assert (d = mkData 1 "Q1" [1] [2; 3] ∨ d = mkData 2 "Q2" [2] [1; 3]) as [-> | ->]
      by (revert Hd; rewrite !elem_of_cons, elem_of_nil; tauto).
    all: split; [unfold INT_MIN, INT_MAX; simpl; lia|]; split; [reflexivity|];
      (split; [exists "Q"%char; split; [reflexivity|discriminate]|]);
      (split; [|split; [|split; vm_compute; reflexivity]]);
      intros x; simpl; rewrite ?elem_of_cons, elem_of_nil;
      unfold INT_MIN, INT_MAX; lia. }
  split; [exact Hok|].
  destruct (readQuestionsFromCSV_written ∅ "questions.csv" "id,text,yes,no" _ ∅ Hok)
    as (qs & σ' & Hrun & Hlen & _).
  exists qs, σ'. split; [|exact Hlen]. exact Hrun.
Defined.

(** ** The store of [buildTree] and the answer of [getCharacter] *)

(** X19. [buildTree] writes only to the objects it allocates: with a valid
    pool it returns an address that held no object before the call, every
    object that was in the store is still there unchanged, the pool is as
    usable after the call as before, and the address denotes the tree of
    the pure reading of the function. *)
Theorem buildTree_heap_frame remaining_ids questions σ :
  pool_valid σ questions →
  ∃ p σ' t,
    buildTree_heap remaining_ids questions σ = Some (p, σ') ∧
    σ !! p = None ∧
    (∀ a o, σ !! a = Some o → σ' !! a = Some o) ∧
    pool_valid σ' questions ∧
    buildTree σ remaining_ids questions = Some t ∧
    buildTree σ' remaining_ids questions = Some t ∧
    reads σ' (Some p) (Some t).
Proof.
  intros Hv.
  destruct (buildTree_total σ remaining_ids questions Hv) as [t Ht].
  destruct (buildTree_heap_refines σ remaining_ids questions t Ht Hv σ)
    as (p & σ' & Hcall & Hsub & Hfree & Hreads); [done|].
  exists p, σ', t. split; [done|]. split; [done|].
  assert (∀ a o, σ !! a = Some o → σ' !! a = Some o) as Hkeep
    by (intros a o Ha; by eapply lookup_weaken).
  split; [done|]. split.
  { intros q Hq. destruct (Hv q Hq) as [o Ho]. exists o. by apply Hkeep. }
  split; [done|]. split; [|apply Hreads; auto].
  rewrite (buildTree_ext σ σ'); [done|].
  intros q Hq. destruct (Hv q Hq) as [o Ho]. rewrite Ho. by apply Hkeep.
Qed.

Lemma buildTree_heap_frame_witness :
  pool_valid he pool0 ∧
  ∃ p σ', buildTree_heap {[1; 2; 3]} pool0 he = Some (p, σ') ∧
          he !! p = None ∧ reads σ' (Some p) (Some te).
Proof.
  assert (pool_valid he pool0) as Hv by (apply (bool_decide_unpack _); vm_compute; exact I).
  split; [exact Hv|].
  destruct (buildTree_heap_frame {[1; 2; 3]} pool0 he Hv)
    as (p & σ' & t & Hcall & Hfree & _ & _ & Ht & _ & Hreads).
  assert (buildTree he {[1; 2; 3]} pool0 = Some te) as Hte by (vm_compute; reflexivity).
  rewrite Hte in Ht. injection Ht as <-.
  by exists p, σ'.
Defined.

(** X20. [getCharacter] returns a record only when at most one candidate is
    left: with one candidate the record has the id of that candidate, with
    none it has the id 0; in both cases the id is in the range of [int].
    With more than one candidate it gives no value, and it never throws
    then. *)
Theorem getCharacter_sound fs s :
  (∀ c, getCharacter fs s = Some (Returned c) →
        (characters s = {[char_id c]} ∨ (characters s = ∅ ∧ char_id c = 0)) ∧
        INT_MIN ≤ char_id c ≤ INT_MAX) ∧
  ((1 < size (characters s))%nat ↔ getCharacter fs s = None).
Proof.
  assert (∀ id c, readCharacterByID fs charactersFilename id = Returned c →
                  char_id c = id ∧ INT_MIN ≤ char_id c ≤ INT_MAX) as Hread.
  { intros id c. unfold readCharacterByID.
    destruct (fs !! charactersFilename) as [lines|]; [|done].
    intros (pre & line & post & _ & _ & Hline & ->)%find_character_returned.
    split; [done|]. simpl. by eapply stoi_range. }
  unfold getCharacter. split.
  - intros c. case_decide as H1; [done|]. case_decide as H0.
    + intros [= Hc]. destruct (Hread _ _ Hc) as [Hid Hrange].
      split; [|done]. right. split; [|done].
      apply leibniz_equiv, size_empty_inv. lia.
    + assert (size (characters s) = 1%nat) as Hsz by lia.
      destruct (size_1_singleton _ Hsz) as [x Hx].
      rewrite Hx, set_begin_singleton. cbn [mbind option_bind].
      intros [= Hc]. destruct (Hread _ _ Hc) as [Hid Hrange].
      split; [|done]. left. by rewrite Hid.
  - case_decide as H1; [done|]. case_decide as H0.
    + split; [lia|done].
    + assert (size (characters s) = 1%nat) as Hsz by lia.
      destruct (size_1_singleton _ Hsz) as [x Hx].
      split; [intros ?; lia|]. by rewrite Hx, set_begin_singleton.
Qed.

Lemma getCharacter_sound_witness :
  getCharacter fs0 (mkQuestionTree None {[2]})
    = Some (Returned (mkCharacter 2 "Elsa" "elsa.png")) ∧
  characters (mkQuestionTree None {[2]}) = {[2]} ∧
  getCharacter fs0 (mkQuestionTree None {[1; 2]}) = None.
Proof.
  assert (getCharacter fs0 (mkQuestionTree None {[2]})
          = Some (Returned (mkCharacter 2 "Elsa" "elsa.png"))) as Hget
    by (vm_compute; reflexivity).
  split; [exact Hget|]. split; [reflexivity|].
  apply (proj2 (getCharacter_sound fs0 (mkQuestionTree None {[1; 2]}))).
  vm_compute. lia.
Defined.
